(** * NlpManager: orchestration and model codec of lib/nlp/nlp-manager.js

    A shallow embedding of the [NlpManager] class: the locale registry
    ([addLanguage]), training fan-out ([train]), the [process] pipeline
    (locale resolution, classification arbitration, outcome mapping, entity,
    sentiment, answer and slot glue), [clear], and the persisted-model codec
    ([export] / [import]) with its sparse encoding of observation rows.

    JavaScript objects used as dictionaries are finite maps, arrays are lists,
    [undefined] and [null] are explicit values, exceptions are an error
    result, and the one object the code shares between two owners (a
    classifier's [observations]) lives in an explicit store. *)

From Stdlib Require Import ZArith QArith Lia.
From stdpp Require Import base gmap strings list fin_maps sorting.
Close Scope Q_scope.
Set Warnings "-clear-no-such-hyp".


(** ** JavaScript values *)

(** A value found where the source expects a string (a locale, an utterance,
    an answer): [undefined], [null] (which only JSON introduces), or a
    string. *)
Inductive jsval :=
| JUndef
| JNull
| JStr (s : string).

#[global] Instance jsval_eq_dec : EqDecision jsval.
Proof. solve_decision. Defined.

(** [!v] on such a value: [undefined], [null] and the empty string. *)
Definition falsy (v : jsval) : bool :=
  match v with
  | JStr s => bool_decide (s = ""%string)
  | _ => true
  end.

Definition truthy (v : jsval) : bool := negb (falsy v).

(** [a || b]. *)
Definition js_or (a b : jsval) : jsval := if truthy a then a else b.

(** The property key a value denotes in [obj[v]]. *)
Definition prop_key (v : jsval) : string :=
  match v with
  | JUndef => "undefined"%string
  | JNull => "null"%string
  | JStr s => s
  end.

(** What [JSON.parse (JSON.stringify a)] leaves of an array element. *)
Definition json_elem (v : jsval) : jsval :=
  match v with
  | JUndef => JNull
  | _ => v
  end.

(** A cell of an array of numbers: a hole (an index never assigned),
    [undefined], [null], or a number.  Only integers matter to the source:
    it compares a cell with [1] and uses cells as array indices. *)
Inductive cell :=
| Hole
| Undefined
| Null
| Num (z : Z).

#[global] Instance cell_eq_dec : EqDecision cell.
Proof. solve_decision. Defined.

(** The argument of [filter(n => n)]: a non-zero number. *)
Definition truthy_cell (c : cell) : Prop :=
  match c with
  | Num z => z ≠ 0%Z
  | _ => False
  end.

#[global] Instance truthy_cell_dec c : Decision (truthy_cell c).
Proof. destruct c; simpl; apply _. Defined.

(** [JSON.stringify] writes holes and [undefined] as [null]. *)
Definition json_cell (c : cell) : cell :=
  match c with
  | Hole | Undefined => Null
  | _ => c
  end.

Definition idx (i : nat) : cell := Num (Z.of_nat i).

(** [arr[i] = v] on a JavaScript array: an index past the end extends the
    array, leaving holes in between. *)
Definition array_set (arr : list cell) (i : nat) (v : cell) : list cell :=
  if decide (i < length arr) then <[i := v]> arr
  else arr ++ replicate (i - length arr) Hole ++ [v].

(** ** The sparse codec of observation rows *)

Abbreviation row := (list cell).
Abbreviation matrix := (list (list cell)).

(** [(feat, index) => (feat === 1 ? index : undefined)]; [map] leaves holes
    where they are. *)
Definition mark (index : nat) (feat : cell) : cell :=
  match feat with
  | Hole => Hole
  | _ => if decide (feat = Num 1) then idx index else Undefined
  end.

(** export, lines 581-583:
    [features.map((feat, index) => ...).filter(n => n)]. *)
Definition sparse_row (features : row) : row :=
  filter truthy_cell (imap mark features).

(** import, line 539: [features[featPosition] = 1].  Only a non-negative
    integer names an element; [null], [undefined] or a negative number name
    an ordinary property, which no array operation of the source reads. *)
Definition set_feature (features : row) (featPosition : cell) : row :=
  match featPosition with
  | Num z => if decide (0 ≤ z)%Z then array_set features (Z.to_nat z) (Num 1)
             else features
  | _ => features
  end.

(** import, lines 536-540: [Array(n).fill(0)], then one assignment per
    stored position. *)
Definition dense_row (n : nat) (positions : row) : row :=
  foldl set_feature (replicate n (Num 0)) positions.

Definition sparse_matrix (m : matrix) : matrix := sparse_row <$> m.
Definition dense_matrix (n : nat) (m : matrix) : matrix := dense_row n <$> m.
Definition json_row (r : row) : row := json_cell <$> r.
Definition json_matrix (m : matrix) : matrix := json_row <$> m.

(** A row as the classifier trains it: zeros and ones, one per feature. *)
Definition binary_row (n : nat) (r : row) : Prop :=
  length r = n ∧ Forall (λ c, c = Num 0 ∨ c = Num 1) r.

(** The row has no feature at column index 0. *)
Definition no_column_0 (r : row) : Prop := r !! 0 ≠ Some (Num 1).

#[global] Instance binary_row_dec n r : Decision (binary_row n r).
Proof. unfold binary_row. apply _. Defined.

#[global] Instance no_column_0_dec r : Decision (no_column_0 r).
Proof. unfold no_column_0. apply _. Defined.

(** Position [i] is one that [sparse_row] records. *)
Definition is_one (r : row) (i : nat) : Prop := i ≠ 0 ∧ r !! i = Some (Num 1).

#[global] Instance is_one_dec r i : Decision (is_one r i).
Proof. unfold is_one. apply _. Defined.

(** ** Results, errors, scores *)

(** What a call can raise: the [TypeError] of reading a property of
    [undefined], or an [Error] thrown by name. *)
Inductive error :=
| TypeError
| Error (msg : string).

Inductive res (A : Type) :=
| Ok (a : A)
| Throw (e : error).

Arguments Ok {A} a.
Arguments Throw {A} e.

Definition res_bind {A B} (x : res A) (f : A → res B) : res B :=
  match x with
  | Ok a => f a
  | Throw e => Throw e
  end.

Notation "'let*' x := y 'in' z" := (res_bind y (λ x, z))
  (at level 10, x name, y at level 100, z at level 200, only parsing).
Notation "'let*' ' p := y 'in' z" := (res_bind y (λ x, let 'p := x in z))
  (at level 10, p pattern, y at level 100, z at level 200, only parsing).

(** One ranked answer of a classifier.  Scores are finite numbers; the code
    only orders them and compares them with 0.5. *)
Record entry := { label : string; value : Q }.

(** [a > b] on scores. *)
Definition gt (a b : Q) : bool := negb (Qle_bool a b).

(** [isEqualClassification], lines 343-350: every score is exactly 0.5. *)
Fixpoint isEqualClassification (classifications : list entry) : bool :=
  match classifications with
  | [] => true
  | c :: rest =>
      if Qeq_bool (value c) (1 # 2) then isEqualClassification rest else false
  end.

(** A named entity found in an utterance. *)
Record Entity := { entity : string; option_ : jsval; utteranceText : jsval }.

(** The context object of a conversation. *)
Abbreviation Context := (gmap string jsval).

(** [context[entity.entity] = entity.option || entity.utteranceText]. *)
Definition merge_entity (context : Context) (e : Entity) : Context :=
  <[entity e := js_or (option_ e) (utteranceText e)]> context.

(** The argument of [addLanguage] and [train]: one locale or an array. *)
Inductive locales :=
| One (l : jsval)
| Many (ls : list jsval).

(** [Array.isArray(x) ? x : [x]]. *)
Definition to_array (src : locales) : list jsval :=
  match src with
  | One l => [l]
  | Many ls => ls
  end.

(** The store of observation objects: a reference is an index, [new] appends. *)
Abbreviation Store := (list (gmap string (list (list cell)))).

(** ** The manager and its collaborators *)

Section NlpManager.

(** [Data] is JSON data the manager only carries (documents, labels, weights,
    saved collaborator state, sentiment records); [Ner] and [Slot] are the
    live [NerManager] and [SlotManager] objects. *)
Context {Data Ner Slot : Type}.

(** The record [process] builds and returns. *)
Record Result := {
  r_locale : jsval;
  r_localeIso2 : jsval;
  r_language : jsval;
  r_utterance : jsval;
  r_classification : option (list entry);
  r_intent : string;
  r_domain : option string;
  r_score : Q;
  r_entities : list Entity;
  r_sentiment : Data;
  r_srcAnswer : jsval;
  r_answer : jsval;
}.

Definition set_answer (r : Result) (a : jsval) : Result :=
  {| r_locale := r_locale r; r_localeIso2 := r_localeIso2 r;
     r_language := r_language r; r_utterance := r_utterance r;
     r_classification := r_classification r; r_intent := r_intent r;
     r_domain := r_domain r; r_score := r_score r;
     r_entities := r_entities r; r_sentiment := r_sentiment r;
     r_srcAnswer := r_srcAnswer r; r_answer := a |}.

(** The settings object.  [None] is an absent field. *)
Record Settings := {
  st_ner : option Data;
  st_languages : option locales;
  st_fullSearchWhenGuessed : option bool;
  st_useNlg : option bool;
  st_processTransformer : option (Result → Result);
  st_other : gmap string Data;
}.

(** Modelled from the spec: the fields of an [NlpClassifier] that the
    manager reads and writes (nlp-classifier.js is not part of this file).
    [cl_language] is [settings.language]; [cl_features] is the feature
    vocabulary, whose [length] sizes a decoded row; [lrc_*] are the fields
    of [settings.classifier], with [lrc_observations] a reference into the
    store. *)
Record NlpClassifier := {
  cl_language : jsval;
  cl_docs : Data;
  cl_features : list string;
  lrc_observations : nat;
  lrc_labels : Data;
  lrc_classifications : Data;
  lrc_observationCount : Data;
  lrc_theta : Data;
}.

Record NlpManager := {
  settings : Settings;
  nerManager : Ner;
  languages : list jsval;
  classifiers : gmap string NlpClassifier;
  slotManager : Slot;
  intentDomains : gmap string string;
  processTransformer : Result → Result;
  nlg_responses : Data;
  store : Store;
}.

(** The collaborators the manager calls into.  None of them is part of
    nlp-manager.js: each operation is a parameter of the development. *)
Class Collaborators := {
  (** NlpUtil *)
  getTruncatedLocale : jsval → jsval;
  (** Language: [guess] gives the [alpha2] of each guess, best first;
      [languageName v] is [(languagesAlpha2[v] || {}).name]. *)
  guess : jsval → list jsval → nat → list jsval;
  languageName : jsval → jsval;
  (** NerManager *)
  ner_new : option Data → Ner;
  ner_save : Ner → Data;
  ner_load : Ner → Data → Ner;
  findEntities : Ner → jsval → jsval → Data → list Entity;
  generateEntityUtterance : Ner → jsval → jsval → jsval;
  (** SlotManager *)
  slot_new : Slot;
  slot_clear : Slot → Slot;
  slot_save : Slot → Data;
  slot_load : Slot → Data → Slot;
  getIntentEntityNames : Slot → string → Data;
  slot_process : Slot → Result → Context → bool * Result * Context;
  (** SentimentManager *)
  sentiment_process : jsval → jsval → Data;
  (** NlgManager: [nlg_new] is the [responses] of a new manager,
      [findAnswer] the [response] of the answer found, if one is found. *)
  nlg_new : Data;
  findAnswer : Data → jsval → string → Context → option jsval;
  (** Handlebars: [render a c] is [Handlebars.compile(a)(c)]. *)
  render : jsval → Context → jsval;
  (** NlpClassifier: the fields of a new classifier, ranked classification,
      training. *)
  init_docs : Data;
  init_features : list string;
  init_observations : gmap string (list (list cell));
  init_labels : Data;
  init_classifications : Data;
  init_observationCount : Data;
  init_theta : Data;
  getClassifications : NlpClassifier → jsval → list entry;
  classifier_train : Store → NlpClassifier → res NlpClassifier;
}.

Context `{!Collaborators}.

(** *** Field updates *)

Definition with_registry (m : NlpManager) (ls : list jsval)
    (cs : gmap string NlpClassifier) (σ : Store) : NlpManager :=
  {| settings := settings m; nerManager := nerManager m; languages := ls;
     classifiers := cs; slotManager := slotManager m;
     intentDomains := intentDomains m;
     processTransformer := processTransformer m;
     nlg_responses := nlg_responses m; store := σ |}.

(** *** constructor, lines 56-79 *)

(** Modelled from the spec: [new NlpClassifier({ language })], a fresh
    classifier bound to the language, with its own observations object at
    reference [o]; the other fields start as the collaborator makes them. *)
Definition new_NlpClassifier (language : jsval) (o : nat) : NlpClassifier :=
  {| cl_language := language; cl_docs := init_docs;
     cl_features := init_features; lrc_observations := o;
     lrc_labels := init_labels; lrc_classifications := init_classifications;
     lrc_observationCount := init_observationCount; lrc_theta := init_theta |}.

(** *** addLanguage, lines 85-98 *)

Definition addLanguage_step (m : NlpManager) (locale : jsval) : NlpManager :=
  let truncated := getTruncatedLocale locale in
  let ls := if decide (truncated ∈ languages m) then languages m
            else languages m ++ [truncated] in
  match classifiers m !! prop_key truncated with
  | Some _ => with_registry m ls (classifiers m) (store m)
  | None =>
      let o := length (store m) in
      with_registry m ls
        (<[prop_key truncated := new_NlpClassifier truncated o]> (classifiers m))
        (store m ++ [init_observations])
  end.

Definition addLanguage (m : NlpManager) (srcLocales : locales) : NlpManager :=
  foldl addLanguage_step m (to_array srcLocales).

Definition default_settings (s : Settings) : Settings :=
  {| st_ner := st_ner s; st_languages := st_languages s;
     st_fullSearchWhenGuessed :=
       Some (default true (st_fullSearchWhenGuessed s));
     st_useNlg := Some (default true (st_useNlg s));
     st_processTransformer := st_processTransformer s;
     st_other := st_other s |}.

Definition empty_settings : Settings :=
  {| st_ner := None; st_languages := None; st_fullSearchWhenGuessed := None;
     st_useNlg := None; st_processTransformer := None; st_other := ∅ |}.

(** [if (this.settings.languages)]: an array is truthy, a lone value as
    [truthy] says. *)
Definition languages_given (l : option locales) : option locales :=
  match l with
  | Some (One v) => if truthy v then l else None
  | _ => l
  end.

Definition new_NlpManager (srcSettings : option Settings) : NlpManager :=
  let s := default empty_settings srcSettings in
  let m :=
    {| settings := default_settings s; nerManager := ner_new (st_ner s);
       languages := []; classifiers := ∅; slotManager := slot_new;
       intentDomains := ∅;
       processTransformer := default id (st_processTransformer s);
       nlg_responses := nlg_new; store := [] |} in
  match languages_given (st_languages s) with
  | Some ls => addLanguage m ls
  | None => m
  end.

(** *** guessLanguage, lines 105-108 *)

Definition guessLanguage (m : NlpManager) (utterance : jsval) : jsval :=
  match guess utterance (languages m) 1 with
  | alpha2 :: _ => alpha2
  | [] => JUndef
  end.

(** *** assignDomain, getIntentDomain, lines 171-182 *)

Definition assignDomain (m : NlpManager) (intent domain : string) : NlpManager :=
  {| settings := settings m; nerManager := nerManager m;
     languages := languages m; classifiers := classifiers m;
     slotManager := slotManager m;
     intentDomains := <[intent := domain]> (intentDomains m);
     processTransformer := processTransformer m;
     nlg_responses := nlg_responses m; store := store m |}.

Definition getIntentDomain (m : NlpManager) (intent : string) : option string :=
  intentDomains m !! intent.

(** *** train, lines 275-291 *)

(** The body mapped over the locales: an unbound locale passes the
    [if (classifier)] guard by doing nothing.  The trainings are independent
    (one classifier object each); the call rejects when one of them does. *)
Definition train_step (acc : res NlpManager) (language : jsval) : res NlpManager :=
  let* m := acc in
  let truncated := getTruncatedLocale language in
  match classifiers m !! prop_key truncated with
  | Some classifier =>
      let* trained := classifier_train (store m) classifier in
      Ok (with_registry m (languages m)
            (<[prop_key truncated := trained]> (classifiers m)) (store m))
  | None => Ok m
  end.

(** [if (locale)]: an array is truthy, a lone value as [truthy] says. *)
Definition train (m : NlpManager) (locale : option locales) : res NlpManager :=
  let ls :=
    match locale with
    | Some (Many ls) => ls
    | Some (One l) => if truthy l then [l] else languages m
    | None => languages m
    end in
  foldl train_step (Ok m) ls.

(** *** classify, lines 299-312 *)

Definition classify (m : NlpManager) (srcLocale srcUtterance : jsval)
    : option (list entry) :=
  let '(utterance, locale) :=
    if falsy srcUtterance then (srcLocale, guessLanguage m srcLocale)
    else (srcUtterance, srcLocale) in
  let truncated := getTruncatedLocale locale in
  match classifiers m !! prop_key truncated with
  | None => None
  | Some classifier => Some (getClassifications classifier utterance)
  end.

(** *** getSentiment, lines 319-328; getAnswer, lines 330-336 *)

Definition getSentiment (m : NlpManager) (srcLocale srcUtterance : jsval) : Data :=
  let '(utterance, locale) :=
    if falsy srcUtterance then (srcLocale, guessLanguage m srcLocale)
    else (srcUtterance, srcLocale) in
  sentiment_process (getTruncatedLocale locale) utterance.

Definition getAnswer (m : NlpManager) (locale : jsval) (intent : string)
    (context : Context) : jsval :=
  match findAnswer (nlg_responses m) locale intent context with
  | Some response => if truthy response then response else JUndef
  | None => JUndef
  end.

(** *** clear, lines 500-506 *)

Definition clear (m : NlpManager) : NlpManager :=
  {| settings := settings m;
     nerManager := ner_new (st_ner (settings m));
     languages := [];
     classifiers := ∅;
     slotManager := slot_clear (slotManager m);
     intentDomains := intentDomains m;
     processTransformer := processTransformer m;
     nlg_responses := nlg_new;
     store := store m |}.


(** *** process, lines 388-495 *)

(** Lines 389-404: the utterance, the resolved locale, and whether the
    locale was guessed. *)
Definition process_locale (m : NlpManager) (srcLocale srcUtterance : jsval)
    : jsval * jsval * bool :=
  let '(utterance, locale, languageGuessed) :=
    if falsy srcUtterance then (srcLocale, guessLanguage m srcLocale, true)
    else (srcUtterance, srcLocale, false) in
  if decide (getTruncatedLocale locale ∈ languages m)
  then (utterance, locale, languageGuessed)
  else
    let locale := guessLanguage m utterance in
    let locale := if falsy locale then hd JUndef (languages m) else locale in
    (utterance, locale, true).

(** The body of the two [forEach] loops of the full search, lines 415-423
    and 428-436, on the pair [(bestScore, bestClassification)]. *)
Definition scan_step (m : NlpManager) (utterance : jsval)
    (best : option Q * option (list entry)) (language : jsval)
    : option Q * option (list entry) :=
  match classify m language utterance with
  | Some (top :: rest) =>
      match best.1 with
      | None => (Some (value top), Some (top :: rest))
      | Some bestScore =>
          if gt (value top) bestScore
          then (Some (value top), Some (top :: rest))
          else best
      end
  | _ => best
  end.

Definition scan (m : NlpManager) (utterance : jsval)
    (best : option Q * option (list entry)) : option Q * option (list entry) :=
  foldl (scan_step m utterance) best (languages m).

(** [this.settings.fullSearchWhenGuessed] as a condition. *)
Definition fullSearchWhenGuessed (m : NlpManager) : bool :=
  default false (st_fullSearchWhenGuessed (settings m)).

(** Lines 412-457: the classification the outcome is read from.  In the
    second branch line 452 reads [result.classification[0].value], which
    throws when [result.classification] is [undefined] or empty. *)
Definition process_classification (m : NlpManager) (utterance truncated : jsval)
    (languageGuessed : bool) : res (option (list entry)) :=
  if languageGuessed && fullSearchWhenGuessed m then
    let best := scan m utterance (None, None) in
    let optionalUtterance :=
      generateEntityUtterance (nerManager m) utterance truncated in
    let best := scan m optionalUtterance best in
    Ok best.2
  else
    let classification := classify m truncated utterance in
    let optionalUtterance :=
      generateEntityUtterance (nerManager m) utterance truncated in
    if decide (optionalUtterance ≠ utterance) then
      match classify m truncated optionalUtterance with
      | Some (optionalTop :: optionalRest) =>
          match classification with
          | Some (top :: _) =>
              if gt (value optionalTop) (value top)
              then Ok (Some (optionalTop :: optionalRest))
              else Ok classification
          | _ => Throw TypeError
          end
      | _ => Ok classification
      end
    else Ok classification.

(** Lines 458-470: intent, domain and score. *)
Definition process_outcome (m : NlpManager) (classification : option (list entry))
    : string * option string * Q :=
  match classification with
  | Some (top :: rest) =>
      if isEqualClassification (top :: rest)
      then ("None"%string, Some "default"%string, 1%Q)
      else (label top, getIntentDomain m (label top), value top)
  | _ => ("None"%string, Some "default"%string, 1%Q)
  end.

(** Lines 486-493: what follows a slot manager that reports a change. *)
Definition process_slots (r : Result) (context : Context) : Result * Context :=
  let context := foldl merge_entity context (r_entities r) in
  let r := if truthy (r_srcAnswer r)
           then set_answer r (render (r_srcAnswer r) context) else r in
  (r, context).

Definition process (m : NlpManager) (srcLocale srcUtterance : jsval)
    (srcContext : option Context) : res (Result * Context) :=
  let '(utterance, locale, languageGuessed) :=
    process_locale m srcLocale srcUtterance in
  let truncated := getTruncatedLocale locale in
  let* classification :=
    process_classification m utterance truncated languageGuessed in
  let '(intent, domain, score) := process_outcome m classification in
  let entities :=
    findEntities (nerManager m) utterance truncated
      (getIntentEntityNames (slotManager m) intent) in
  let context := foldl merge_entity (default ∅ srcContext) entities in
  let sentiment := getSentiment m truncated utterance in
  let answer := getAnswer m truncated intent context in
  let result :=
    {| r_locale := locale; r_localeIso2 := truncated;
       r_language := languageName truncated; r_utterance := utterance;
       r_classification := classification; r_intent := intent;
       r_domain := domain; r_score := score; r_entities := entities;
       r_sentiment := sentiment;
       r_srcAnswer := if truthy answer then answer else JUndef;
       r_answer := if truthy answer then render answer context else JUndef |} in
  let '(changed, result, context) :=
    slot_process (slotManager m) result context in
  let '(result, context) :=
    if changed then process_slots result context else (result, context) in
  Ok (processTransformer m result, context).

(** *** export, lines 557-596 *)

(** One classifier of the persisted model.  In the clone that [export]
    builds, [observations] is a reference ([O = nat]); in the JSON document
    it is the object itself. *)
Record ClassifierClone (O : Type) := {
  cc_language : jsval;
  cc_docs : Data;
  cc_features : list string;
  lg_observations : O;
  lg_labels : Data;
  lg_classifications : Data;
  lg_observationCount : Data;
  lg_theta : Data;
}.

Record Clone (O : Type) := {
  c_settings : Settings;
  c_languages : list jsval;
  c_intentDomains : option (gmap string string);
  c_nerManager : Data;
  c_slotManager : Data;
  c_classifiers : list (ClassifierClone O);
  c_responses : Data;
}.

#[global] Arguments cc_language {O} _.
#[global] Arguments cc_docs {O} _.
#[global] Arguments cc_features {O} _.
#[global] Arguments lg_observations {O} _.
#[global] Arguments lg_labels {O} _.
#[global] Arguments lg_classifications {O} _.
#[global] Arguments lg_observationCount {O} _.
#[global] Arguments lg_theta {O} _.
#[global] Arguments c_settings {O} _.
#[global] Arguments c_languages {O} _.
#[global] Arguments c_intentDomains {O} _.
#[global] Arguments c_nerManager {O} _.
#[global] Arguments c_slotManager {O} _.
#[global] Arguments c_classifiers {O} _.
#[global] Arguments c_responses {O} _.

(** The persisted model: the value [JSON.parse] gives back for the string
    [export] returns.  [minified] only chooses the spacing of that string. *)
Abbreviation Document := (Clone (gmap string (list (list cell)))).

(** The body of [this.languages.forEach], lines 567-592.  Line 577 makes
    [logistic.observations] the classifier's own observations object, so the
    assignments of line 581 are writes to the store at that reference. *)
Definition export_step (m : NlpManager)
    (acc : res (list (ClassifierClone nat) * Store)) (language : jsval)
    : res (list (ClassifierClone nat) * Store) :=
  let* '(clones, σ) := acc in
  match classifiers m !! prop_key language with
  | None => Throw TypeError
  | Some classifier =>
      let classifierClone :=
        {| cc_language := cl_language classifier;
           cc_docs := cl_docs classifier;
           cc_features := cl_features classifier;
           lg_observations := lrc_observations classifier;
           lg_labels := lrc_labels classifier;
           lg_classifications := lrc_classifications classifier;
           lg_observationCount := lrc_observationCount classifier;
           lg_theta := lrc_theta classifier |} in
      match σ !! lrc_observations classifier with
      | None => Throw TypeError
      | Some observations =>
          Ok (clones ++ [classifierClone],
              <[lg_observations classifierClone :=
                  sparse_matrix <$> observations]> σ)
      end
  end.

(** [JSON.stringify] drops a function-valued field. *)
Definition json_settings (s : Settings) : Settings :=
  {| st_ner := st_ner s; st_languages := st_languages s;
     st_fullSearchWhenGuessed := st_fullSearchWhenGuessed s;
     st_useNlg := st_useNlg s; st_processTransformer := None;
     st_other := st_other s |}.

(** [JSON.stringify] follows each reference of the clone into the store as
    it is when [export] returns. *)
Definition stringify_classifier (σ : Store) (c : ClassifierClone nat)
    : option (ClassifierClone (gmap string (list (list cell)))) :=
  match σ !! lg_observations c with
  | Some observations =>
      Some {| cc_language := cc_language c; cc_docs := cc_docs c;
              cc_features := cc_features c;
              lg_observations := json_matrix <$> observations;
              lg_labels := lg_labels c;
              lg_classifications := lg_classifications c;
              lg_observationCount := lg_observationCount c;
              lg_theta := lg_theta c |}
  | None => None
  end.

Definition stringify (σ : Store) (c : Clone nat) : option Document :=
  match mapM (stringify_classifier σ) (c_classifiers c) with
  | Some cs =>
      Some {| c_settings := json_settings (c_settings c);
              c_languages := json_elem <$> c_languages c;
              c_intentDomains := c_intentDomains c;
              c_nerManager := c_nerManager c;
              c_slotManager := c_slotManager c;
              c_classifiers := cs;
              c_responses := c_responses c |}
  | None => None
  end.

(** [export] returns the document and leaves the manager with the store its
    writes produced. *)
Definition export (m : NlpManager) (minified : bool) : res (Document * NlpManager) :=
  let* '(clones, σ) := foldl (export_step m) (Ok ([], store m)) (languages m) in
  let clone :=
    {| c_settings := settings m;
       c_languages := languages m;
       c_intentDomains := Some (intentDomains m);
       c_nerManager := ner_save (nerManager m);
       c_slotManager := slot_save (slotManager m);
       c_classifiers := clones;
       c_responses := nlg_responses m |} in
  match stringify σ clone with
  | Some document =>
      Ok (document, with_registry m (languages m) (classifiers m) σ)
  | None => Throw TypeError
  end.

(** *** import, lines 512-550, of the string [export] returns *)

(** The body of the loop over [clone.classifiers], lines 522-548.
    [lrc.observations = {}] is a new object; the rows are rebuilt into it. *)
Definition import_step (acc : res NlpManager)
    (classifierClone : ClassifierClone (gmap string (list (list cell))))
    : res NlpManager :=
  let* m := acc in
  let m := addLanguage m (One (cc_language classifierClone)) in
  match classifiers m !! prop_key (cc_language classifierClone) with
  | None => Throw TypeError
  | Some classifier =>
      let o := length (store m) in
      let observations :=
        dense_matrix (length (cc_features classifierClone))
          <$> lg_observations classifierClone in
      let classifier :=
        {| cl_language := cl_language classifier;
           cl_docs := cc_docs classifierClone;
           cl_features := cc_features classifierClone;
           lrc_observations := o;
           lrc_labels := lg_labels classifierClone;
           lrc_classifications := lg_classifications classifierClone;
           lrc_observationCount := lg_observationCount classifierClone;
           lrc_theta := lg_theta classifierClone |} in
      Ok (with_registry m (languages m)
            (<[prop_key (cc_language classifierClone) := classifier]>
               (classifiers m))
            (store m ++ [observations]))
  end.

Definition import (m : NlpManager) (clone : Document) : res NlpManager :=
  let m :=
    {| settings := c_settings clone;
       nerManager := ner_load (nerManager m) (c_nerManager clone);
       languages := c_languages clone;
       classifiers := classifiers m;
       slotManager := slot_load (slotManager m) (c_slotManager clone);
       intentDomains := default ∅ (c_intentDomains clone);
       processTransformer := processTransformer m;
       nlg_responses := c_responses clone;
       store := store m |} in
  foldl import_step (Ok m) (c_classifiers clone).

(** The observations object of the classifier bound to [language], read
    through its reference. *)
Definition observations_of (m : NlpManager) (language : jsval)
    : option (gmap string (list (list cell))) :=
  match classifiers m !! prop_key language with
  | Some classifier => store m !! lrc_observations classifier
  | None => None
  end.


(** *** Vocabulary of the statements *)

(** The fields of a result that locale resolution, arbitration and outcome
    mapping decide. *)
Definition verdict (r : Result)
    : jsval * jsval * jsval * option (list entry) * string * option string * Q :=
  (r_locale r, r_localeIso2 r, r_utterance r, r_classification r,
   r_intent r, r_domain r, r_score r).

(** A collaborator that receives the result after the outcome mapping (the
    slot manager, the transform hook) and leaves those fields as they are. *)
Definition keeps_verdict (f : Result → Result) : Prop :=
  ∀ r, verdict (f r) = verdict r.

Definition slot_keeps_verdict : Prop :=
  ∀ slot r context, verdict (slot_process slot r context).1.2 = verdict r.

(** The top score of a classification is below, or not above, a score; an
    absent or empty classification has no top score. *)
Definition top_below (classification : option (list entry)) (s : Q) : Prop :=
  match classification with
  | Some (top :: _) => (value top < s)%Q
  | _ => True
  end.

Definition top_at_most (classification : option (list entry)) (s : Q) : Prop :=
  match classification with
  | Some (top :: _) => (value top <= s)%Q
  | _ => True
  end.

(** The running best of a scan is unset, or set with a score below [s]. *)
Definition best_below (best : option Q * option (list entry)) (s : Q) : Prop :=
  match best with
  | (None, _) => True
  | (Some b, _) => (b < s)%Q
  end.

(** Absent, empty, or every score exactly 0.5. *)
Definition degenerate (classification : option (list entry)) : Prop :=
  match classification with
  | Some l => Forall (λ e, (value e == 1 # 2)%Q) l
  | None => True
  end.

(** How often a locale occurs in a list. *)
Definition occurrences (l : jsval) (ls : list jsval) : nat :=
  length (filter (λ x, x = l) ls).

(** The registry invariant: no locale twice, each with a classifier. *)
Definition registered (m : NlpManager) : Prop :=
  NoDup (languages m) ∧
  Forall (λ l, is_Some (classifiers m !! prop_key l)) (languages m).

(** The reference of the observations object of the classifier of [l]. *)
Definition observations_ref (m : NlpManager) (l : jsval) : option nat :=
  lrc_observations <$> classifiers m !! prop_key l.

(** A locale of a model as the operations of the manager build it: a
    normalised string, bound to a classifier of that language whose
    observations object exists. *)
Definition language_ok (m : NlpManager) (l : jsval) : Prop :=
  match l, classifiers m !! prop_key l with
  | JStr _, Some c =>
      getTruncatedLocale l = l ∧ cl_language c = l ∧
      lrc_observations c < length (store m)
  | _, _ => False
  end.

#[global] Instance language_ok_dec m l : Decision (language_ok m l).
Proof.
  unfold language_ok. destruct l; try apply _.
  destruct (classifiers m !! _); apply _.
Defined.

(** A well-formed model: the registry invariant, and no two classifiers
    sharing one observations object. *)
Definition registry_ok (m : NlpManager) : Prop :=
  NoDup (languages m) ∧
  Forall (language_ok m) (languages m) ∧
  NoDup (omap (observations_ref m) (languages m)).

#[global] Instance registry_ok_dec m : Decision (registry_ok m).
Proof. unfold registry_ok. apply _. Defined.

(** Every observation row of the classifier of [l] satisfies [P], given the
    number of features of that classifier. *)
Definition rows_of (P : nat → list cell → Prop) (m : NlpManager) (l : jsval)
    : Prop :=
  match classifiers m !! prop_key l with
  | Some c =>
      match store m !! lrc_observations c with
      | Some observations =>
          map_Forall (λ _ rows, Forall (P (length (cl_features c))) rows)
            observations
      | None => True
      end
  | None => True
  end.

#[global] Instance rows_of_dec (P : nat → list cell → Prop)
    `{!∀ n r, Decision (P n r)} m l : Decision (rows_of P m l).
Proof.
  unfold rows_of. destruct (classifiers m !! _) as [c|]; [|apply _].
  destruct (store m !! _); apply _.
Defined.

(** Every observation row is binary with one cell per feature. *)
Definition binary_model (m : NlpManager) : Prop :=
  Forall (rows_of binary_row m) (languages m).

#[global] Instance binary_model_dec m : Decision (binary_model m).
Proof. unfold binary_model. apply _. Defined.

(** No observation row has a feature at column index 0. *)
Definition no_feature_at_column_0 (m : NlpManager) : Prop :=
  Forall (rows_of (λ _, no_column_0) m) (languages m).

#[global] Instance no_feature_at_column_0_dec m :
  Decision (no_feature_at_column_0 m).
Proof. unfold no_feature_at_column_0. apply _. Defined.

(** Every classifier is filed under the language it was made for. *)
Definition filed_under_language (m : NlpManager) : Prop :=
  map_Forall (λ k c, cl_language c = JStr k) (classifiers m).

#[global] Instance filed_under_language_dec m :
  Decision (filed_under_language m).
Proof. unfold filed_under_language. apply _. Defined.

(** What the NER and slot managers save after loading saved state is that
    state. *)
Definition ner_save_load : Prop :=
  ∀ ner ner0, ner_save (ner_load ner0 (ner_save ner)) = ner_save ner.

Definition slot_save_load : Prop :=
  ∀ slot slot0, slot_save (slot_load slot0 (slot_save slot)) = slot_save slot.

(** The clone of a classifier as [export] pushes it, its observations by
    reference, and the effect on the store of the writes made through that
    reference. *)
Definition live_clone (c : NlpClassifier) : ClassifierClone nat :=
  {| cc_language := cl_language c; cc_docs := cl_docs c;
     cc_features := cl_features c; lg_observations := lrc_observations c;
     lg_labels := lrc_labels c;
     lg_classifications := lrc_classifications c;
     lg_observationCount := lrc_observationCount c;
     lg_theta := lrc_theta c |}.

Definition sparsify (σ : Store) (o : nat) : Store :=
  match σ !! o with
  | Some observations => <[o := sparse_matrix <$> observations]> σ
  | None => σ
  end.

(** The document [export] returns, in closed form. *)
Definition encoded_classifier (σ : Store) (c : NlpClassifier)
    : ClassifierClone (gmap string (list (list cell))) :=
  {| cc_language := cl_language c; cc_docs := cl_docs c;
     cc_features := cl_features c;
     lg_observations :=
       sparse_matrix <$> default ∅ (σ !! lrc_observations c);
     lg_labels := lrc_labels c;
     lg_classifications := lrc_classifications c;
     lg_observationCount := lrc_observationCount c;
     lg_theta := lrc_theta c |}.

Definition document_of (m : NlpManager) : Document :=
  {| c_settings := json_settings (settings m);
     c_languages := json_elem <$> languages m;
     c_intentDomains := Some (intentDomains m);
     c_nerManager := ner_save (nerManager m);
     c_slotManager := slot_save (slotManager m);
     c_classifiers :=
       omap (λ l, encoded_classifier (store m) <$> classifiers m !! prop_key l)
         (languages m);
     c_responses := nlg_responses m |}.

(** What [import] makes of one classifier of a document: the classifier it
    leaves in the registry, with its observations at reference [o], and the
    observations object it builds. *)
Definition imported_classifier
    (cc : ClassifierClone (gmap string (list (list cell)))) (o : nat)
    : NlpClassifier :=
  {| cl_language := cc_language cc; cl_docs := cc_docs cc;
     cl_features := cc_features cc; lrc_observations := o;
     lrc_labels := lg_labels cc;
     lrc_classifications := lg_classifications cc;
     lrc_observationCount := lg_observationCount cc;
     lrc_theta := lg_theta cc |}.

Definition decoded_observations
    (cc : ClassifierClone (gmap string (list (list cell))))
    : gmap string (list (list cell)) :=
  dense_matrix (length (cc_features cc)) <$> lg_observations cc.

(** *** getDomains, lines 187-199 *)

(** [Object.keys(o)]: the keys in the enumeration order of the object.  The
    map does not record that order; what is proved of [getDomains] holds for
    every order. *)
Definition Object_keys {A} (o : gmap string A) : list string :=
  (map_to_list o).*1.

(** The names a plain object inherits from [Object.prototype].  Reading one
    of them on an object with no own property of that name gives the
    inherited value, a function or, for [__proto__], the prototype: never
    [undefined], always truthy.  The classifiers are filed under locale
    codes and are read as a map of own keys throughout; intents and domains
    are free text, and for them the inherited names are told apart. *)
Definition Object_prototype : list string :=
  [ "constructor"; "__defineGetter__"; "__defineSetter__"; "hasOwnProperty";
    "__lookupGetter__"; "__lookupSetter__"; "isPrototypeOf";
    "propertyIsEnumerable"; "toString"; "valueOf"; "__proto__";
    "toLocaleString" ]%string.

(** The body of the loop, on [result = {}].  With no own property [domain],
    [result[domain]] is falsy unless the name is inherited; then line 194 is
    skipped and line 196 calls [push] on a value that has none. *)
Definition getDomains_step (m : NlpManager)
    (acc : res (gmap string (list string))) (intent : string)
    : res (gmap string (list string)) :=
  let* result := acc in
  let domain := default "undefined"%string (intentDomains m !! intent) in
  match result !! domain with
  | Some intents => Ok (<[domain := intents ++ [intent]]> result)
  | None =>
      if decide (domain ∈ Object_prototype) then Throw TypeError
      else Ok (<[domain := [intent]]> result)
  end.

Definition getDomains_from (m : NlpManager) (keys : list string)
    : res (gmap string (list string)) :=
  foldl (getDomains_step m) (Ok ∅) keys.

Definition getDomains (m : NlpManager) : res (gmap string (list string)) :=
  getDomains_from m (Object_keys (intentDomains m)).

(** *** extractEntities, lines 359-376 *)

Definition extractEntities (m : NlpManager) (srcLocale srcUtterance : jsval)
    (whitelist : Data) : list Entity :=
  let '(utterance, locale) :=
    if falsy srcUtterance then (srcLocale, guessLanguage m srcLocale)
    else (srcUtterance, srcLocale) in
  let locale :=
    if decide (getTruncatedLocale locale ∈ languages m) then locale
    else guessLanguage m utterance in
  findEntities (nerManager m) utterance (getTruncatedLocale locale) whitelist.

(** *** save, load, lines 602-615 *)

(** The files that hold persisted models, by name.  Reading a name that is
    not there raises the error of [fs.readFileSync]. *)
Definition no_such_file (fileName : string) : error :=
  Error ("ENOENT: no such file or directory, open '" +:+ fileName +:+ "'").

(** [srcFileName || 'model.nlp']. *)
Definition model_file (srcFileName : jsval) : string :=
  prop_key (js_or srcFileName (JStr "model.nlp")).

Definition save (m : NlpManager) (srcFileName : jsval)
    (files : gmap string Document) : res (gmap string Document * NlpManager) :=
  let fileName := model_file srcFileName in
  let* '(document, m) := export m false in
  Ok (<[fileName := document]> files, m).

Definition load (m : NlpManager) (srcFileName : jsval)
    (files : gmap string Document) : res NlpManager :=
  let fileName := model_file srcFileName in
  match files !! fileName with
  | Some data => import m data
  | None => Throw (no_such_file fileName)
  end.

(** *** The full search, seen as one scan *)

(** What the body of the two loops of the full search does with a
    classification, and the classifications the two loops see, in order. *)
Definition keep_best (best : option Q * option (list entry))
    (classification : option (list entry)) : option Q * option (list entry) :=
  match classification with
  | Some (top :: rest) =>
      match best.1 with
      | None => (Some (value top), Some (top :: rest))
      | Some bestScore =>
          if gt (value top) bestScore
          then (Some (value top), Some (top :: rest))
          else best
      end
  | _ => best
  end.

Definition scanned (m : NlpManager) (utterance optionalUtterance : jsval)
    : list (option (list entry)) :=
  ((λ language, classify m language utterance) <$> languages m) ++
  ((λ language, classify m language optionalUtterance) <$> languages m).

(** *** addDocument, removeDocument, lines 207-246 *)

(** What the two call on a classifier, on the NER manager and on the slot
    manager; parameters like the collaborators above. *)
Class Authoring := {
  classifier_add : NlpClassifier → jsval → string → NlpClassifier;
  classifier_remove : NlpClassifier → jsval → string → NlpClassifier;
  getEntitiesFromUtterance : Ner → jsval → Data;
  slot_addBatch : Slot → string → Data → Slot;
}.

Context `{!Authoring}.

Definition with_slotManager (m : NlpManager) (slot : Slot) : NlpManager :=
  {| settings := settings m; nerManager := nerManager m;
     languages := languages m; classifiers := classifiers m;
     slotManager := slot; intentDomains := intentDomains m;
     processTransformer := processTransformer m;
     nlg_responses := nlg_responses m; store := store m |}.

(** Lines 208-218 and 234-244, the same in both: the locale, truncated or
    else guessed, and the classifier bound to it. *)
Definition classifier_for_document (m : NlpManager) (srcLocale utterance : jsval)
    : res (jsval * NlpClassifier) :=
  let locale := getTruncatedLocale srcLocale in
  let locale := if falsy locale then guessLanguage m utterance else locale in
  if falsy locale then Throw (Error "Locale must be defined")
  else
    match classifiers m !! prop_key locale with
    | None =>
        Throw (Error ("Classifier not found for locale " +:+ prop_key locale))
    | Some classifier => Ok (locale, classifier)
    end.

(** Line 220 compares the value read with [undefined]: an intent with no
    domain of its own whose name is inherited reads as the inherited value,
    and is assigned no domain. *)
Definition addDocument (m : NlpManager) (srcLocale utterance : jsval)
    (intent : string) : res NlpManager :=
  let* '(locale, classifier) := classifier_for_document m srcLocale utterance in
  let m :=
    with_registry m (languages m)
      (<[prop_key locale := classifier_add classifier utterance intent]>
         (classifiers m))
      (store m) in
  let m :=
    match getIntentDomain m intent with
    | Some _ => m
    | None =>
        if decide (intent ∈ Object_prototype) then m
        else assignDomain m intent "default"
    end in
  let entities := getEntitiesFromUtterance (nerManager m) utterance in
  Ok (with_slotManager m (slot_addBatch (slotManager m) intent entities)).

Definition removeDocument (m : NlpManager) (srcLocale utterance : jsval)
    (intent : string) : res NlpManager :=
  let* '(locale, classifier) := classifier_for_document m srcLocale utterance in
  Ok (with_registry m (languages m)
        (<[prop_key locale := classifier_remove classifier utterance intent]>
           (classifiers m))
        (store m)).

End NlpManager.

(** ** A concrete world

    Collaborators and managers small enough to run: three locales, a table
    of classifier answers, an entity extractor that knows one name.  The
    examples, witnesses and counterexamples below are evaluated here. *)

Module Toy.

Local Open Scope string_scope.

(** Two leading characters of a non-empty code; no locale otherwise. *)
Definition truncate (v : jsval) : jsval :=
  match v with
  | JStr s => if bool_decide (s = "") then JUndef else JStr (String.substring 0 2 s)
  | _ => JUndef
  end.

(** The guesser recognises one word. *)
Definition guess_toy (utterance : jsval) (candidates : list jsval) (limit : nat)
    : list jsval :=
  if decide (utterance = JStr "hola") then [JStr "es"] else [].

Definition name_toy (v : jsval) : jsval :=
  if decide (v = JStr "en") then JStr "English"
  else if decide (v = JStr "es") then JStr "Spanish"
  else if decide (v = JStr "fr") then JStr "French"
  else JUndef.

(** The entity extractor replaces the name it knows by a placeholder. *)
Definition entity_utterance (ner : unit) (utterance locale : jsval) : jsval :=
  if decide (utterance = JStr "hello John") then JStr "hello %name%"
  else if decide (utterance = JStr "call John") then JStr "call %name%"
  else if decide (utterance = JStr "bye John") then JStr "bye %name%"
  else if decide (utterance = JStr "ciao John") then JStr "ciao %name%"
  else utterance.

Definition E (l : string) (v : Q) : entry := {| label := l; value := v |}.

(** Classifier answers by locale and utterance; any other pair has the
    empty classification. *)
Definition answers : list (string * string * list entry) :=
  [ ("en", "bonjour", [E "greet" (6 # 10); E "bye" (4 # 10)]);
    ("es", "bonjour", [E "saludo" (7 # 10); E "adios" (3 # 10)]);
    ("fr", "bonjour", [E "salut" (9 # 10); E "adieu" (1 # 10)]);
    ("en", "hola", [E "greet" (3 # 10)]);
    ("es", "hola", [E "saludo" (8 # 10)]);
    ("fr", "hola", [E "salut" (4 # 10)]);
    ("en", "hello John", [E "greet" (6 # 10); E "bye" (4 # 10)]);
    ("en", "hello %name%", [E "greet.person" (9 # 10); E "greet" (1 # 10)]);
    ("en", "bye John", [E "bye" (4 # 10); E "greet" (3 # 10)]);
    ("en", "bye %name%", [E "bye.person" (1 # 2)]);
    ("en", "call %name%", [E "call" (9 # 10)]);
    ("en", "ciao John", [E "bye" (4 # 10)]);
    ("es", "ciao John", [E "adios" (6 # 10)]);
    ("en", "ciao %name%", [E "bye.person" (9 # 10)]);
    ("en", "hm", [E "greet" (1 # 2); E "bye" (1 # 2)]) ].

Fixpoint answer_for (table : list (string * string * list entry))
    (language utterance : string) : list entry :=
  match table with
  | [] => []
  | (l, u, a) :: table' =>
      if bool_decide (l = language ∧ u = utterance) then a
      else answer_for table' language utterance
  end.

Definition classifications_toy (classifier : @NlpClassifier string)
    (utterance : jsval) : list entry :=
  match utterance with
  | JStr u => answer_for answers (prop_key (cl_language classifier)) u
  | _ => []
  end.

#[global] Instance collaborators : @Collaborators string unit unit := {|
  getTruncatedLocale := truncate;
  guess := guess_toy;
  languageName := name_toy;
  ner_new := λ _, tt;
  ner_save := λ _, "{}";
  ner_load := λ ner _, ner;
  findEntities := λ _ _ _ _, [];
  generateEntityUtterance := entity_utterance;
  slot_new := tt;
  slot_clear := λ slot, slot;
  slot_save := λ _, "{}";
  slot_load := λ slot _, slot;
  getIntentEntityNames := λ _ _, "[]";
  slot_process := λ _ r context, (false, r, context);
  sentiment_process := λ _ _, "neutral";
  nlg_new := "{}";
  findAnswer := λ _ _ _ _, None;
  render := λ answer _, answer;
  init_docs := "[]";
  init_features := [];
  init_observations := ∅;
  init_labels := "[]";
  init_classifications := "[]";
  init_observationCount := "0";
  init_theta := "[]";
  getClassifications := classifications_toy;
  classifier_train := λ _ classifier, Ok classifier;
|}.

(** [new NlpManager()]: no locale registered. *)
Definition blank : NlpManager := new_NlpManager None.

(** [new NlpManager({ languages: ['en-US', 'es', 'fr'] })]. *)
Definition trilingual : NlpManager :=
  new_NlpManager
    (Some {| st_ner := None;
             st_languages := Some (Many [JStr "en-US"; JStr "es"; JStr "fr"]);
             st_fullSearchWhenGuessed := None; st_useNlg := None;
             st_processTransformer := None; st_other := ∅ |}).

(** A manager with two trained classifiers: three features and three
    observation rows for English, two features and one row for Spanish. *)
Definition en_classifier : @NlpClassifier string :=
  {| cl_language := JStr "en"; cl_docs := "[hello world, bye]";
     cl_features := ["the"; "hello"; "bye"]; lrc_observations := 0;
     lrc_labels := "[greet, bye]"; lrc_classifications := "[]";
     lrc_observationCount := "3"; lrc_theta := "[...]" |}.

Definition es_classifier : @NlpClassifier string :=
  {| cl_language := JStr "es"; cl_docs := "[hola]";
     cl_features := ["el"; "hola"]; lrc_observations := 1;
     lrc_labels := "[saludo]"; lrc_classifications := "[]";
     lrc_observationCount := "1"; lrc_theta := "[...]" |}.

Definition en_observations : gmap string (list (list cell)) :=
  {[ "greet" := [[Num 0; Num 1; Num 0]; [Num 0; Num 1; Num 1]];
     "bye" := [[Num 0; Num 0; Num 1]] ]}.

Definition es_observations : gmap string (list (list cell)) :=
  {[ "saludo" := [[Num 0; Num 1]] ]}.

Definition trained : NlpManager :=
  {| settings := default_settings empty_settings;
     nerManager := tt;
     languages := [JStr "en"; JStr "es"];
     classifiers := {[ "en" := en_classifier; "es" := es_classifier ]};
     slotManager := tt;
     intentDomains := {[ "greet" := "default"; "bye" := "smalltalk" ]};
     processTransformer := id;
     nlg_responses := "{}";
     store := [en_observations; es_observations] |}.

(** Authoring in this world: a classifier writes the documents it is given
    into its [docs]; the entities of an utterance are the utterance after
    substitution; the slot manager keeps nothing. *)
Definition add_toy (classifier : @NlpClassifier string) (utterance : jsval)
    (intent : string) : @NlpClassifier string :=
  {| cl_language := cl_language classifier;
     cl_docs := cl_docs classifier +:+ "+" +:+ prop_key utterance +:+ ":" +:+ intent;
     cl_features := cl_features classifier;
     lrc_observations := lrc_observations classifier;
     lrc_labels := lrc_labels classifier;
     lrc_classifications := lrc_classifications classifier;
     lrc_observationCount := lrc_observationCount classifier;
     lrc_theta := lrc_theta classifier |}.

Definition remove_toy (classifier : @NlpClassifier string) (utterance : jsval)
    (intent : string) : @NlpClassifier string :=
  {| cl_language := cl_language classifier;
     cl_docs := cl_docs classifier +:+ "-" +:+ prop_key utterance +:+ ":" +:+ intent;
     cl_features := cl_features classifier;
     lrc_observations := lrc_observations classifier;
     lrc_labels := lrc_labels classifier;
     lrc_classifications := lrc_classifications classifier;
     lrc_observationCount := lrc_observationCount classifier;
     lrc_theta := lrc_theta classifier |}.

#[global] Instance authoring : @Authoring string unit unit := {|
  classifier_add := add_toy;
  classifier_remove := remove_toy;
  getEntitiesFromUtterance := λ ner utterance,
    prop_key (entity_utterance ner utterance JUndef);
  slot_addBatch := λ slot _ _, slot;
|}.

(** A document written by hand, with the language of its one classifier
    not truncated. *)
Definition handwritten : Clone (gmap string (list (list cell))) :=
  {| c_settings := default_settings empty_settings;
     c_languages := [JStr "en-US"];
     c_intentDomains := None;
     c_nerManager := "{}";
     c_slotManager := "{}";
     c_classifiers :=
       [ {| cc_language := JStr "en-US"; cc_docs := "[]"; cc_features := [];
            lg_observations := ∅; lg_labels := "[]";
            lg_classifications := "[]"; lg_observationCount := "0";
            lg_theta := "[]" |} ];
     c_responses := "{}" |}.

End Toy.
(** ** Codec lemmas *)

Lemma filter_ext_Forall {A} (P Q : A → Prop) `{!∀ x, Decision (P x)}
    `{!∀ x, Decision (Q x)} (l : list A) :
  Forall (λ x, P x ↔ Q x) l → filter P l = filter Q l.
Proof.
  induction 1 as [|x l Hx _ IH]; [done|].
  rewrite !filter_cons, IH.
  destruct (decide (P x)), (decide (Q x)); tauto.
Qed.

Lemma filter_seq_bounded (P Q : nat → Prop) `{!∀ x, Decision (P x)}
    `{!∀ x, Decision (Q x)} (a b : nat) :
  (∀ i, P i ↔ Q i) → (∀ i, P i → i < a) → (∀ i, Q i → i < b) →
  filter P (seq 0 a) = filter Q (seq 0 b).
Proof.
  intros HPQ Ha Hb.
  assert (Hcut : ∀ (R : nat → Prop) `{!∀ x, Decision (R x)} n k,
    (∀ i, R i → i < n) → filter R (seq 0 (n + k)) = filter R (seq 0 n)).
  { intros R ? n k Hn. rewrite seq_app, filter_app.
    replace (filter R (seq (0 + n) k)) with (@nil nat); [by rewrite app_nil_r|].
    symmetry. apply elem_of_nil_inv. intros i [Hi Hs%elem_of_seq]%list_elem_of_filter.
    apply Hn in Hi. lia. }
  rewrite <-(Hcut P _ a (b - a) Ha), <-(Hcut Q _ b (a - b) Hb).
  replace (b + (a - b)) with (a + (b - a)) by lia.
  by apply list_filter_iff.
Qed.

Lemma truthy_mark (i : nat) (x : cell) :
  truthy_cell (mark i x) ↔ i ≠ 0 ∧ x = Num 1.
Proof.
  unfold mark. destruct x as [| | |z]; simpl; try naive_solver.
  case_decide as Hz; simpl; [|naive_solver].
  split; [intros ?; split; [lia|done]|intros [? _]; lia].
Qed.

Lemma sparse_row_seq (r : row) :
  sparse_row r = idx <$> filter (is_one r) (seq 0 (length r)).
Proof.
  unfold sparse_row. induction r as [|x r IH] using rev_ind; [done|].
  rewrite imap_app, filter_app, IH, length_app. simpl.
  rewrite seq_app, filter_app, fmap_app. f_equal.
  - f_equal. apply filter_ext_Forall, Forall_forall. intros i Hi%elem_of_seq.
    unfold is_one. rewrite lookup_app_l by lia. done.
  - simpl. rewrite Nat.add_0_r.
    assert (Hx : (r ++ [x]) !! length r = Some x) by apply list_lookup_middle, eq_refl.
    assert (Hiff : truthy_cell (mark (length r) x) ↔ is_one (r ++ [x]) (length r)).
    { rewrite truthy_mark. unfold is_one. rewrite Hx. naive_solver. }
    rewrite !filter_cons, !filter_nil.
    destruct (decide (truthy_cell _)) as [Ht|Ht], (decide (is_one _ _)) as [Ho|Ho];
      try tauto.
    apply truthy_mark in Ht as [_ ->]. done.
Qed.

Lemma array_set_lookup_one (l : row) (j i : nat) :
  array_set l j (Num 1) !! i = Some (Num 1) ↔ i = j ∨ l !! i = Some (Num 1).
Proof.
  unfold array_set. case_decide as Hj.
  - destruct (decide (i = j)) as [->|Hne].
    + rewrite list_lookup_insert_eq by done. naive_solver.
    + rewrite list_lookup_insert_ne by done. naive_solver.
  - destruct (decide (i < length l)) as [Hi|Hi].
    + rewrite lookup_app_l by done. split; [by right|]. intros [->|?]; [lia|done].
    + rewrite lookup_app_r by lia.
      assert (l !! i = None) as -> by (apply lookup_ge_None; lia).
      destruct (decide (i - length l < j - length l)) as [Hg|Hg].
      * rewrite lookup_app_l by (by rewrite length_replicate).
        rewrite lookup_replicate_2 by done. split; [done|]. intros [->|?]; [lia|done].
      * rewrite lookup_app_r by (rewrite length_replicate; lia).
        rewrite length_replicate.
        destruct (decide (i = j)) as [->|Hne].
        -- replace (j - length l - (j - length l)) with 0 by lia. naive_solver.
        -- destruct (i - length l - (j - length l)) as [|k] eqn:Hk; [lia|].
           simpl. naive_solver.
Qed.

Lemma dense_fold_lookup_one (positions acc : row) (i : nat) :
  foldl set_feature acc positions !! i = Some (Num 1) ↔
  acc !! i = Some (Num 1) ∨
  ∃ z, Num z ∈ positions ∧ (0 ≤ z)%Z ∧ Z.to_nat z = i.
Proof.
  revert acc. induction positions as [|p ps IH]; intros acc; simpl.
  - split; [by left|]. intros [?|(z & []%elem_of_nil & _)]. done.
  - rewrite IH. setoid_rewrite elem_of_cons. unfold set_feature.
    destruct p as [| | |z]; try (split; [intros [?|(z' & ? & ?)]; [by left|right; exists z'; naive_solver]
                                        |intros [?|(z' & [?|?] & ?)]; [by left|done|right; exists z'; naive_solver]]).
    case_decide as Hz.
    + rewrite array_set_lookup_one. split.
      * intros [[->|?]|(z' & ? & ?)]; [right; exists z; naive_solver|by left|right; exists z'; naive_solver].
      * intros [?|(z' & [[= <-]|?] & ? & ?)]; [left; by right|left; by left|right; exists z'; naive_solver].
    + split.
      * intros [?|(z' & ? & ?)]; [by left|right; exists z'; naive_solver].
      * intros [?|(z' & [[= <-]|?] & ? & ?)]; [by left|lia|right; exists z'; naive_solver].
Qed.

Lemma dense_sparse_lookup_one (n : nat) (r : row) (i : nat) :
  dense_row n (sparse_row r) !! i = Some (Num 1) ↔ is_one r i.
Proof.
  unfold dense_row. rewrite dense_fold_lookup_one, sparse_row_seq.
  split.
  - intros [Hrep|(z & Hz & Hz0 & <-)].
    + apply lookup_replicate in Hrep as [[=] _].
    + apply list_elem_of_fmap in Hz as (k & [= ->] & [Hk _]%list_elem_of_filter).
      by rewrite Nat2Z.id in *.
  - intros Hi. right. exists (Z.of_nat i).
    split; [|split; [lia|apply Nat2Z.id]].
    apply list_elem_of_fmap. exists i. split; [done|].
    apply list_elem_of_filter. split; [done|].
    apply elem_of_seq. destruct Hi as [_ Hi%lookup_lt_Some]. lia.
Qed.

Lemma dense_sparse_is_one (n : nat) (r : row) (i : nat) :
  is_one (dense_row n (sparse_row r)) i ↔ is_one r i.
Proof.
  unfold is_one at 1. rewrite dense_sparse_lookup_one. unfold is_one. tauto.
Qed.

Lemma dense_fold_in_range (positions acc : row) :
  Forall (λ c, c = Num 0 ∨ c = Num 1) acc →
  Forall (λ p, ∃ k, p = idx k ∧ k < length acc) positions →
  length (foldl set_feature acc positions) = length acc ∧
  Forall (λ c, c = Num 0 ∨ c = Num 1) (foldl set_feature acc positions).
Proof.
  revert acc. induction positions as [|p ps IH]; intros acc Hacc Hps; [done|].
  apply Forall_cons in Hps as [(k & -> & Hk) Hps]. cbn [foldl].
  assert (Hset : set_feature acc (idx k) = <[k := Num 1]> acc).
  { unfold set_feature, idx, array_set. rewrite Nat2Z.id.
    case_decide; [|lia]. by case_decide. }
  rewrite Hset. destruct (IH (<[k := Num 1]> acc)) as [Hlen Hbin].
  - apply Forall_insert; [done|by right].
  - rewrite length_insert. done.
  - rewrite Hlen, length_insert. done.
Qed.

(** Decoding an encoded row gives the trained row back when that row is
    binary, has one cell per feature, and has no feature at column 0. *)
Lemma dense_sparse_binary (n : nat) (r : row) :
  binary_row n r → no_column_0 r → dense_row n (sparse_row r) = r.
Proof.
  intros [Hlen Hbin] H0.
  destruct (dense_fold_in_range (sparse_row r) (replicate n (Num 0))) as [Hl Hb].
  - apply Forall_replicate. by left.
  - rewrite sparse_row_seq. apply Forall_fmap, Forall_forall.
    intros k [_ Hk%elem_of_seq]%list_elem_of_filter. exists k.
    rewrite length_replicate. split; [done|lia].
  - fold (dense_row n (sparse_row r)) in Hl, Hb. rewrite length_replicate in Hl.
    apply list_eq. intros i.
    destruct (r !! i) as [c|] eqn:Hc.
    + pose proof (lookup_lt_Some _ _ _ Hc) as Hi.
      destruct (lookup_lt_is_Some_2 (dense_row n (sparse_row r)) i) as [d Hd]; [lia|].
      pose proof (dense_sparse_lookup_one n r i) as Hone. unfold is_one in Hone.
      rewrite Hd, Hc in Hone. rewrite Hd.
      rewrite Forall_forall in Hbin, Hb.
      assert (Hcb : c = Num 0 ∨ c = Num 1) by (eapply Hbin, list_elem_of_lookup_2, Hc).
      assert (Hdb : d = Num 0 ∨ d = Num 1) by (eapply Hb, list_elem_of_lookup_2, Hd).
      destruct Hcb as [->| ->].
      * destruct Hdb as [->| ->]; [done|]. destruct Hone as [Hone _].
        by destruct Hone as [_ [=]].
      * destruct Hone as [_ Hone]. rewrite Hone; [done|]. split; [|done].
        intros ->. by apply H0.
    + apply lookup_ge_None. apply lookup_ge_None in Hc. lia.
Qed.

(** Re-encoding a decoded sparse row gives the sparse row back, whatever the
    row it was encoded from and whatever the width it was decoded with. *)
Lemma sparse_dense_sparse (n : nat) (r : row) :
  sparse_row (dense_row n (sparse_row r)) = sparse_row r.
Proof.
  etrans; [apply sparse_row_seq|]. etrans; [|symmetry; apply sparse_row_seq].
  f_equal. apply filter_seq_bounded.
  - apply dense_sparse_is_one.
  - by intros i [_ Hi%lookup_lt_Some].
  - by intros i [_ Hi%lookup_lt_Some].
Qed.

(** A sparse row holds numbers only, so JSON carries it unchanged. *)
Lemma json_sparse_row (r : row) : json_row (sparse_row r) = sparse_row r.
Proof.
  rewrite sparse_row_seq. unfold json_row. rewrite <-list_fmap_compose.
  by apply list_fmap_ext.
Qed.


Example sparse_row_positions :
  sparse_row [Num 0; Num 1; Num 0; Num 1] = [Num 1; Num 3].
Proof. reflexivity. Qed.

(** A feature at column 0 is lost: index 0 does not pass [filter(n => n)]. *)
Example sparse_row_drops_column_0 :
  sparse_row [Num 1; Num 0; Num 1] = [Num 2] ∧
  dense_row 3 (sparse_row [Num 1; Num 0; Num 1]) = [Num 0; Num 0; Num 1].
Proof. split; reflexivity. Qed.

(** A position past the width extends the row and leaves holes. *)
Example dense_row_extends :
  dense_row 2 [Num 4] = [Num 0; Num 0; Hole; Hole; Num 1].
Proof. reflexivity. Qed.

(** ** The manager: lemmas and theorems *)

Section Proofs.

Context {Data Ner Slot : Type} `{!@Collaborators Data Ner Slot}.

Implicit Types (m : @NlpManager Data Ner Slot) (r : @Result Data).

(** *** Scores *)

Lemma gt_lt (a b : Q) : gt a b = true ↔ (b < a)%Q.
Proof.
  unfold gt. rewrite negb_true_iff. split.
  - intros Hf. apply Qnot_le_lt. intros Hle%Qle_bool_iff. congruence.
  - intros Hlt. destruct (Qle_bool a b) eqn:E; [|done].
    apply Qle_bool_iff in E. exfalso. by apply (Qlt_not_le b a).
Qed.

Lemma gt_false_le (a b : Q) : gt a b = false ↔ (a <= b)%Q.
Proof.
  unfold gt. rewrite negb_false_iff. apply Qle_bool_iff.
Qed.

Lemma isEqualClassification_spec (l : list entry) :
  isEqualClassification l = true ↔ Forall (λ e, (value e == 1 # 2)%Q) l.
Proof.
  induction l as [|e l IH]; simpl.
  - split; [constructor|done].
  - destruct (Qeq_bool (value e) (1 # 2)) eqn:E.
    + apply Qeq_bool_iff in E. rewrite IH, Forall_cons. tauto.
    + split; [done|]. intros [He%Qeq_bool_iff _]%Forall_cons. congruence.
Qed.

(** *** What [process] returns, from the classification it settles on *)

Lemma verdict_set_answer r a : verdict (set_answer r a) = verdict r.
Proof. done. Qed.

Lemma verdict_process_slots r context :
  verdict (process_slots r context).1 = verdict r.
Proof. unfold process_slots. simpl. by destruct (truthy (r_srcAnswer r)). Qed.

Lemma process_verdict m srcLocale srcUtterance srcContext utterance locale guessed :
  slot_keeps_verdict → keeps_verdict (processTransformer m) →
  process_locale m srcLocale srcUtterance = (utterance, locale, guessed) →
  match process_classification m utterance (getTruncatedLocale locale) guessed with
  | Ok classification =>
      ∃ r context,
        process m srcLocale srcUtterance srcContext = Ok (r, context) ∧
        verdict r =
          (locale, getTruncatedLocale locale, utterance, classification,
           (process_outcome m classification).1.1,
           (process_outcome m classification).1.2,
           (process_outcome m classification).2)
  | Throw e => process m srcLocale srcUtterance srcContext = Throw e
  end.
Proof.
  intros Hslot Hhook Hloc. unfold process. rewrite Hloc.
  destruct (process_classification _ _ _ _) as [classification|e]; [|done].
  simpl. destruct (process_outcome m classification) as [[intent domain] score].
  match goal with |- context [slot_process ?s ?r ?c] =>
    pose proof (Hslot s r c) as Hs; destruct (slot_process s r c) as [[changed r'] c']
  end.
  simpl in Hs. destruct changed.
  - pose proof (verdict_process_slots r' c') as Hp.
    destruct (process_slots r' c') as [r'' c'']. simpl in Hp.
    eexists _, _. split; [done|]. by rewrite Hhook, Hp, Hs.
  - eexists _, _. split; [done|]. by rewrite Hhook, Hs.
Qed.

Lemma process_returns m srcLocale srcUtterance srcContext utterance locale guessed
    (classification : option (list entry)) :
  slot_keeps_verdict → keeps_verdict (processTransformer m) →
  process_locale m srcLocale srcUtterance = (utterance, locale, guessed) →
  process_classification m utterance (getTruncatedLocale locale) guessed
  = Ok classification →
  ∃ r context,
    process m srcLocale srcUtterance srcContext = Ok (r, context) ∧
    r_locale r = locale ∧
    r_classification r = classification ∧
    (r_intent r, r_domain r, r_score r) = process_outcome m classification.
Proof.
  intros Hslot Hhook Hloc Hcl.
  pose proof (process_verdict m _ _ srcContext _ _ _ Hslot Hhook Hloc) as Hv.
  rewrite Hcl in Hv. destruct Hv as (r & context & Hp & Hv).
  exists r, context. split; [done|]. unfold verdict in Hv.
  injection Hv as -> _ _ -> -> -> ->.
  by destruct (process_outcome m classification) as [[??]?].
Qed.

Lemma process_throws m srcLocale srcUtterance srcContext utterance locale guessed
    (e : error) :
  process_locale m srcLocale srcUtterance = (utterance, locale, guessed) →
  process_classification m utterance (getTruncatedLocale locale) guessed
  = Throw e →
  process m srcLocale srcUtterance srcContext = Throw e.
Proof. intros Hloc Hcl. unfold process. by rewrite Hloc, Hcl. Qed.

(** *** Outcome mapping *)

Lemma process_outcome_spec m (classification : option (list entry)) :
  (degenerate classification →
     process_outcome m classification
     = ("None"%string, Some "default"%string, 1%Q)) ∧
  (¬ degenerate classification →
     ∃ top rest, classification = Some (top :: rest) ∧
       process_outcome m classification
       = (label top, intentDomains m !! label top, value top)).
Proof.
  unfold process_outcome, degenerate, getIntentDomain.
  destruct classification as [[|top rest]|]; try (split; [done|intros []; done]).
  destruct (isEqualClassification (top :: rest)) eqn:E.
  - apply isEqualClassification_spec in E. split; [done|]. by intros [].
  - split; [|by eexists _, _].
    intros Hd%isEqualClassification_spec. congruence.
Qed.


(** *** The locale given and registered *)

Lemma process_locale_given m locale utterance :
  falsy utterance = false → getTruncatedLocale locale ∈ languages m →
  process_locale m locale utterance = (utterance, locale, false).
Proof.
  intros Hu Hin. unfold process_locale. rewrite Hu. by rewrite decide_True.
Qed.

(** Line 452 with a locale given and registered, an original classification
    that has no top score, and a substituted one that has: the call throws. *)
Lemma process_throws_without_top m locale utterance srcContext
    optionalTop optionalRest :
  falsy utterance = false →
  getTruncatedLocale locale ∈ languages m →
  generateEntityUtterance (nerManager m) utterance (getTruncatedLocale locale)
  ≠ utterance →
  classify m (getTruncatedLocale locale)
    (generateEntityUtterance (nerManager m) utterance (getTruncatedLocale locale))
  = Some (optionalTop :: optionalRest) →
  (∀ top rest,
     classify m (getTruncatedLocale locale) utterance ≠ Some (top :: rest)) →
  process m locale utterance srcContext = Throw TypeError.
Proof.
  intros Hu Hin Hne Hopt Hempty.
  apply (process_throws m _ _ _ utterance locale false);
    [by apply process_locale_given|].
  unfold process_classification. simpl.
  rewrite decide_True by done. rewrite Hopt.
  destruct (classify m _ utterance) as [[|top rest]|]; try done.
  by destruct (Hempty top rest).
Qed.


(** *** Full search *)

Lemma scan_step_below m utterance best language (s : Q) :
  best_below best s → top_below (classify m language utterance) s →
  best_below (scan_step m utterance best language) s.
Proof.
  intros Hbest Htop. unfold scan_step.
  destruct (classify m language utterance) as [[|top rest]|]; try done.
  destruct best as [[b|] c]; simpl in *; [|done].
  by destruct (gt (value top) b).
Qed.

Lemma scan_below m utterance (ls : list jsval) best (s : Q) :
  best_below best s →
  Forall (λ l, top_below (classify m l utterance) s) ls →
  best_below (foldl (scan_step m utterance) best ls) s.
Proof.
  intros Hbest Hls. revert best Hbest.
  induction Hls as [|l ls Hl _ IH]; intros best Hbest; [done|].
  simpl. apply IH. by apply scan_step_below.
Qed.

Lemma scan_step_takes m utterance best language top rest :
  best_below best (value top) →
  classify m language utterance = Some (top :: rest) →
  scan_step m utterance best language = (Some (value top), Some (top :: rest)).
Proof.
  intros Hbest Hcl. unfold scan_step. rewrite Hcl.
  destruct best as [[b|] c]; simpl in *; [|done].
  apply gt_lt in Hbest. by rewrite Hbest.
Qed.

Lemma scan_keeps m utterance (ls : list jsval) top (kept : option (list entry)) :
  Forall (λ l, top_at_most (classify m l utterance) (value top)) ls →
  foldl (scan_step m utterance) (Some (value top), kept) ls
  = (Some (value top), kept).
Proof.
  induction 1 as [|l ls Hl _ IH]; [done|].
  simpl. replace (scan_step _ _ _ l) with (Some (value top), kept); [done|].
  unfold scan_step.
  destruct (classify m l utterance) as [[|t ts]|]; try done.
  simpl in *. apply gt_false_le in Hl. by rewrite Hl.
Qed.


(** *** Locale fallback *)


(** *** The registry *)

Lemma occurrences_NoDup (l : jsval) (ls : list jsval) :
  NoDup ls → l ∈ ls → occurrences l ls = 1.
Proof.
  unfold occurrences. induction 1 as [|x ls Hx Hnd IH]; [by intros ?%elem_of_nil|].
  intros Hin. rewrite filter_cons. destruct (decide (x = l)) as [->|Hne].
  - simpl. f_equal. replace (filter (λ x, x = l) ls) with (@nil jsval); [done|].
    symmetry. apply elem_of_nil_inv. intros y [-> Hy]%list_elem_of_filter. done.
  - apply IH. apply elem_of_cons in Hin as [->|Hin]; [done|done].
Qed.

Lemma addLanguage_step_languages m locale :
  languages (addLanguage_step m locale)
  = if decide (getTruncatedLocale locale ∈ languages m) then languages m
    else languages m ++ [getTruncatedLocale locale].
Proof. unfold addLanguage_step. by destruct (classifiers m !! _). Qed.

Lemma addLanguage_step_classifier m locale (k : string) c :
  classifiers m !! k = Some c →
  classifiers (addLanguage_step m locale) !! k = Some c.
Proof.
  intros Hk. unfold addLanguage_step.
  destruct (classifiers m !! prop_key (getTruncatedLocale locale)) eqn:E; [done|].
  simpl. rewrite lookup_insert_ne; [done|]. intros <-. congruence.
Qed.

Lemma addLanguage_step_bound m locale :
  is_Some (classifiers (addLanguage_step m locale)
             !! prop_key (getTruncatedLocale locale)).
Proof.
  unfold addLanguage_step.
  destruct (classifiers m !! prop_key (getTruncatedLocale locale)) eqn:E; simpl.
  - by rewrite E.
  - by rewrite lookup_insert_eq.
Qed.

Lemma addLanguage_step_registered m locale :
  registered m → registered (addLanguage_step m locale).
Proof.
  intros [Hnd Hall]. split.
  - rewrite addLanguage_step_languages. case_decide; [done|].
    apply NoDup_app. split; [done|]. split; [|apply NoDup_singleton].
    intros x Hx ->%list_elem_of_singleton. done.
  - assert (Hold : Forall (λ l, is_Some (classifiers (addLanguage_step m locale)
                                            !! prop_key l)) (languages m)).
    { eapply Forall_impl; [exact Hall|]. intros l [c Hc].
      exists c. by apply addLanguage_step_classifier. }
    rewrite addLanguage_step_languages. case_decide; [done|].
    apply Forall_app. split; [done|]. apply Forall_singleton.
    apply addLanguage_step_bound.
Qed.

Lemma addLanguage_step_mono m locale (x : jsval) :
  x ∈ languages m → x ∈ languages (addLanguage_step m locale).
Proof.
  intros Hx. rewrite addLanguage_step_languages. case_decide; [done|].
  apply elem_of_app. by left.
Qed.

Lemma addLanguage_step_adds m locale :
  getTruncatedLocale locale ∈ languages (addLanguage_step m locale).
Proof.
  rewrite addLanguage_step_languages. case_decide; [done|].
  apply elem_of_app. right. by apply list_elem_of_singleton.
Qed.

(** What a run of [addLanguage_step] keeps and adds. *)
Lemma addLanguage_steps m (ls : list jsval) :
  registered m →
  registered (foldl addLanguage_step m ls) ∧
  (∀ x, x ∈ languages m → x ∈ languages (foldl addLanguage_step m ls)) ∧
  (∀ k c, classifiers m !! k = Some c →
          classifiers (foldl addLanguage_step m ls) !! k = Some c) ∧
  (∀ l, l ∈ ls →
        getTruncatedLocale l ∈ languages (foldl addLanguage_step m ls)).
Proof.
  revert m. induction ls as [|l ls IH]; intros m Hm; simpl.
  - refine (conj _ (conj _ (conj _ _))); try done. by intros l ?%elem_of_nil.
  - destruct (IH (addLanguage_step m l)) as (Hreg & Hmono & Hcls & Hadd).
    { by apply addLanguage_step_registered. }
    refine (conj _ (conj _ (conj _ _))); try done.
    + intros x Hx. by apply Hmono, addLanguage_step_mono.
    + intros k c Hk. by apply Hcls, addLanguage_step_classifier.
    + intros l' [->|Hl']%elem_of_cons; [|by apply Hadd].
      apply Hmono, addLanguage_step_adds.
Qed.

Lemma addLanguage_calls m (calls : list locales) :
  registered m →
  registered (foldl addLanguage m calls) ∧
  (∀ x, x ∈ languages m → x ∈ languages (foldl addLanguage m calls)) ∧
  (∀ k c, classifiers m !! k = Some c →
          classifiers (foldl addLanguage m calls) !! k = Some c) ∧
  (∀ src l, src ∈ calls → l ∈ to_array src →
        getTruncatedLocale l ∈ languages (foldl addLanguage m calls)).
Proof.
  revert m. induction calls as [|src calls IH]; intros m Hm; simpl.
  - refine (conj _ (conj _ (conj _ _))); try done. by intros src l ?%elem_of_nil.
  - destruct (addLanguage_steps m (to_array src) Hm) as (Hreg1 & Hmono1 & Hcls1 & Hadd1).
    destruct (IH (addLanguage m src) Hreg1) as (Hreg & Hmono & Hcls & Hadd).
    refine (conj _ (conj _ (conj _ _))); try done.
    + intros x Hx. by apply Hmono, Hmono1.
    + intros k c Hk. by apply Hcls, Hcls1.
    + intros src' l [->|Hsrc]%elem_of_cons Hl; [|by eapply Hadd].
      by apply Hmono, Hadd1.
Qed.

Lemma new_NlpManager_registered (srcSettings : option Settings) :
  registered (new_NlpManager srcSettings).
Proof.
  unfold new_NlpManager.
  match goal with |- context [addLanguage ?m0 _] =>
    assert (Hm : registered m0) by (split; [apply NoDup_nil_2|apply Forall_nil_2])
  end.
  destruct (languages_given _) as [ls|]; [|done].
  by apply addLanguage_steps.
Qed.


(** *** Training *)

Lemma train_fold m (ls : list jsval) :
  (∀ σ c, ∃ c', classifier_train σ c = Ok c') →
  ∃ m', foldl train_step (Ok m) ls = Ok m' ∧
        languages m' = languages m ∧
        (∀ k, classifiers m !! k = None → classifiers m' !! k = None).
Proof.
  intros Htrain. revert m. induction ls as [|l ls IH]; intros m; simpl.
  - by exists m.
  - destruct (classifiers m !! prop_key (getTruncatedLocale l)) as [c|] eqn:E.
    + destruct (Htrain (store m) c) as [c' Hc']. rewrite Hc'. simpl.
      match goal with |- context [foldl train_step (Ok ?m1) ls] =>
        destruct (IH m1) as (m' & Hm' & Hl & Hk) end.
      exists m'. split; [done|]. split; [done|].
      intros k Hnone. apply Hk. simpl. rewrite lookup_insert_ne; [done|].
      intros <-. congruence.
    + apply IH.
Qed.

(** C8, as the code has it.  A locale with no bound classifier passes the
    guard of [train] silently: when no classifier's training fails, the
    call succeeds whatever locales it is given, and a locale that had no
    classifier before the call has none after it. *)
Theorem train_skips_unbound m (locale : option locales) :
  (∀ σ c, ∃ c', classifier_train σ c = Ok c') →
  ∃ m', train m locale = Ok m' ∧
        languages m' = languages m ∧
        (∀ k, classifiers m !! k = None → classifiers m' !! k = None).
Proof. intros Htrain. unfold train. by apply train_fold. Qed.

(** *** clear *)

(** [clear] empties the registry and renews the NER, slot and answer state;
    the settings stay, and so does the intent-to-domain map. *)
Lemma clear_fields m :
  settings (clear m) = settings m ∧
  languages (clear m) = [] ∧
  classifiers (clear m) = ∅ ∧
  nerManager (clear m) = ner_new (st_ner (settings m)) ∧
  slotManager (clear m) = slot_clear (slotManager m) ∧
  nlg_responses (clear m) = nlg_new ∧
  intentDomains (clear m) = intentDomains m.
Proof. done. Qed.

(** *** export *)

Lemma sparsify_length (σ : Store) (o : nat) : length (sparsify σ o) = length σ.
Proof. unfold sparsify. destruct (σ !! o); [apply length_insert|done]. Qed.

Lemma sparsify_fold_length (refs : list nat) (σ : Store) :
  length (foldl sparsify σ refs) = length σ.
Proof.
  revert σ. induction refs as [|o refs IH]; intros σ; [done|].
  simpl. by rewrite IH, sparsify_length.
Qed.

Lemma sparsify_lookup (σ : Store) (o o' : nat) :
  sparsify σ o !! o'
  = if decide (o' = o) then fmap sparse_matrix <$> σ !! o' else σ !! o'.
Proof.
  unfold sparsify. destruct (σ !! o) as [obs|] eqn:E.
  - case_decide as Ho; [subst o'|by rewrite list_lookup_insert_ne].
    rewrite list_lookup_insert_eq by (by eapply lookup_lt_Some). by rewrite E.
  - case_decide as Ho; [subst o'|done]. by rewrite E.
Qed.

Lemma sparsify_fold_lookup (refs : list nat) (σ : Store) (o : nat) :
  NoDup refs →
  foldl sparsify σ refs !! o
  = if decide (o ∈ refs) then fmap sparse_matrix <$> σ !! o else σ !! o.
Proof.
  intros Hnd. revert σ. induction Hnd as [|a refs Ha Hnd IH]; intros σ.
  - done.
  - simpl. rewrite IH, sparsify_lookup.
    repeat case_decide; subst; try done; exfalso; set_solver.
Qed.

Lemma export_fold m (ls : list jsval) (clones : list (ClassifierClone nat))
    (σ : Store) :
  Forall (λ l, ∃ c, classifiers m !! prop_key l = Some c ∧
                    lrc_observations c < length σ) ls →
  foldl (export_step m) (Ok (clones, σ)) ls
  = Ok (clones ++ omap (λ l, live_clone <$> classifiers m !! prop_key l) ls,
        foldl sparsify σ (omap (observations_ref m) ls)).
Proof.
  intros Hls. revert clones σ Hls.
  induction ls as [|l ls IH]; intros clones σ Hls.
  - simpl. by rewrite app_nil_r.
  - apply Forall_cons in Hls as [(c & Hc & Hlt) Hls].
    destruct (lookup_lt_is_Some_2 σ _ Hlt) as [obs Hobs].
    cbn [foldl omap list_omap]. unfold observations_ref at 1.
    assert (Hstep : export_step m (Ok (clones, σ)) l
                    = Ok (clones ++ [live_clone c], sparsify σ (lrc_observations c))).
    { unfold export_step, sparsify. simpl. rewrite Hc. simpl. by rewrite Hobs. }
    rewrite Hstep, Hc. simpl. rewrite IH.
    + by rewrite <-app_assoc.
    + eapply Forall_impl; [exact Hls|]. intros l' (c' & Hc' & Hlt').
      exists c'. by rewrite sparsify_length.
Qed.

Lemma json_sparse_matrix (obs : gmap string (list (list cell))) :
  json_matrix <$> (sparse_matrix <$> obs) = sparse_matrix <$> obs.
Proof.
  rewrite <-map_fmap_compose. apply map_fmap_ext. intros label rows _. simpl.
  unfold json_matrix, sparse_matrix. rewrite <-list_fmap_compose.
  apply list_fmap_ext. intros i r _. apply json_sparse_row.
Qed.

Lemma stringify_classifiers m (σ' : Store) (ls : list jsval) :
  Forall (λ l, ∃ c obs, classifiers m !! prop_key l = Some c ∧
                        store m !! lrc_observations c = Some obs ∧
                        σ' !! lrc_observations c = Some (sparse_matrix <$> obs)) ls →
  mapM (stringify_classifier σ')
    (omap (λ l, live_clone <$> classifiers m !! prop_key l) ls)
  = Some (omap (λ l, encoded_classifier (store m) <$> classifiers m !! prop_key l) ls).
Proof.
  induction 1 as [|l ls (c & obs & Hc & Hobs & Hobs') _ IH]; [done|].
  cbn [omap list_omap]. rewrite Hc. cbn [fmap option_fmap option_map mapM].
  rewrite IH. unfold stringify_classifier at 1. simpl. rewrite Hobs'. simpl.
  unfold encoded_classifier. rewrite Hobs. simpl. by rewrite json_sparse_matrix.
Qed.

Lemma registry_ok_bound m (l : jsval) :
  registry_ok m → l ∈ languages m →
  ∃ (s : string) c obs,
    l = JStr s ∧ getTruncatedLocale l = l ∧
    classifiers m !! s = Some c ∧ cl_language c = l ∧
    store m !! lrc_observations c = Some obs.
Proof.
  intros (_ & Hall & _) Hl. rewrite Forall_forall in Hall.
  specialize (Hall l Hl). unfold language_ok in Hall.
  destruct l as [| |s]; try done. simpl in Hall.
  destruct (classifiers m !! s) as [c|] eqn:Hc; [|done].
  destruct Hall as (Ht & Hlang & Hlt).
  destruct (lookup_lt_is_Some_2 (store m) _ Hlt) as [obs Hobs].
  by exists s, c, obs.
Qed.

(** On a well-formed model [export] succeeds; it returns [document_of] and
    leaves every exported observations object in sparse form. *)
Lemma export_spec m (minified : bool) :
  registry_ok m →
  export m minified
  = Ok (document_of m,
        with_registry m (languages m) (classifiers m)
          (foldl sparsify (store m) (omap (observations_ref m) (languages m)))).
Proof.
  intros Hok. unfold export. rewrite export_fold.
  - simpl. unfold stringify. simpl.
    rewrite (stringify_classifiers m); [done|].
    apply Forall_forall. intros l Hl.
    destruct (registry_ok_bound m l Hok Hl) as (s & c & obs & -> & _ & Hc & _ & Hobs).
    exists c, obs. split; [done|]. split; [done|].
    rewrite sparsify_fold_lookup by apply Hok.
    rewrite decide_True; [by rewrite Hobs|].
    apply list_elem_of_omap. exists (JStr s). split; [done|].
    unfold observations_ref. simpl. by rewrite Hc.
  - apply Forall_forall. intros l Hl.
    destruct (registry_ok_bound m l Hok Hl) as (s & c & obs & -> & _ & Hc & _ & Hobs).
    exists c. split; [done|]. by eapply lookup_lt_Some.
Qed.

(** What [export] does to the manager it is called on: each exported
    classifier is left holding the sparse encodings of its rows. *)
Lemma export_leaves_sparse m (minified : bool) (l : jsval) :
  registry_ok m → l ∈ languages m →
  ∃ document m1 obs,
    export m minified = Ok (document, m1) ∧
    observations_of m l = Some obs ∧
    observations_of m1 l = Some (sparse_matrix <$> obs).
Proof.
  intros Hok Hl. rewrite (export_spec m minified Hok).
  destruct (registry_ok_bound m l Hok Hl) as (s & c & obs & -> & _ & Hc & _ & Hobs).
  eexists _, _, obs. split; [done|]. unfold observations_of. simpl.
  rewrite Hc. split; [done|].
  rewrite sparsify_fold_lookup by apply Hok.
  rewrite decide_True; [by rewrite Hobs|].
  apply list_elem_of_omap. exists (JStr s). split; [done|].
  unfold observations_ref. simpl. by rewrite Hc.
Qed.

(** *** import *)

Lemma addLanguage_registered_language m' (s : string) :
  getTruncatedLocale (JStr s) = JStr s → JStr s ∈ languages m' →
  addLanguage m' (One (JStr s))
  = match classifiers m' !! s with
    | Some _ => with_registry m' (languages m') (classifiers m') (store m')
    | None =>
        with_registry m' (languages m')
          (<[s := new_NlpClassifier (JStr s) (length (store m'))]> (classifiers m'))
          (store m' ++ [init_observations])
    end.
Proof.
  intros Ht Hin. unfold addLanguage. simpl. unfold addLanguage_step.
  rewrite Ht. simpl. by rewrite decide_True.
Qed.

Lemma import_step_spec m' (cc : ClassifierClone (gmap string (list (list cell))))
    (s : string) :
  cc_language cc = JStr s → getTruncatedLocale (JStr s) = JStr s →
  JStr s ∈ languages m' → filed_under_language m' →
  ∃ extra : Store,
    import_step (Ok m') cc
    = Ok (with_registry m' (languages m')
            (<[s := imported_classifier cc (length (store m' ++ extra))]>
               (classifiers m'))
            ((store m' ++ extra) ++ [decoded_observations cc])).
Proof.
  intros Hs Ht Hin Hfiled. unfold import_step. simpl. rewrite Hs.
  rewrite (addLanguage_registered_language m' s Ht Hin).
  unfold imported_classifier, decoded_observations. rewrite Hs.
  destruct (classifiers m' !! s) as [c0|] eqn:Hc0.
  - exists []. simpl. rewrite Hc0. rewrite app_nil_r.
    by rewrite (Hfiled s c0 Hc0).
  - exists [init_observations]. simpl. rewrite lookup_insert_eq.
    by rewrite insert_insert_eq.
Qed.

Lemma StronglySorted_lt_NoDup (l : list nat) : StronglySorted lt l → NoDup l.
Proof.
  induction 1 as [|x l _ IH Hx]; [apply NoDup_nil_2|].
  apply NoDup_cons. split; [|done]. intros Hin.
  rewrite Forall_forall in Hx. specialize (Hx x Hin). lia.
Qed.

(** The loop of [import] over classifiers of distinct, registered,
    normalised languages. *)
Lemma import_fold_spec (cs : list (ClassifierClone (gmap string (list (list cell)))))
    m' :
  NoDup (cc_language <$> cs) →
  Forall (λ cc, ∃ s, cc_language cc = JStr s ∧
                     getTruncatedLocale (JStr s) = JStr s ∧
                     JStr s ∈ languages m') cs →
  filed_under_language m' →
  ∃ (bound : gmap string NlpClassifier) (σ2 : Store),
    foldl import_step (Ok m') cs
    = Ok (with_registry m' (languages m') bound σ2) ∧
    (∃ extra, σ2 = store m' ++ extra) ∧
    (∀ k, JStr k ∉ cc_language <$> cs → bound !! k = classifiers m' !! k) ∧
    map_Forall (λ k c, cl_language c = JStr k) bound ∧
    Forall (λ cc, ∃ o, bound !! prop_key (cc_language cc)
                       = Some (imported_classifier cc o) ∧
                       length (store m') ≤ o ∧
                       σ2 !! o = Some (decoded_observations cc)) cs ∧
    StronglySorted lt
      (omap (λ l, lrc_observations <$> bound !! prop_key l) (cc_language <$> cs)).
Proof.
  revert m'. induction cs as [|cc cs IH]; intros m' Hnd Hall Hfiled.
  - exists (classifiers m'), (store m'). simpl.
    refine (conj _ (conj _ (conj _ (conj Hfiled (conj _ _))))); try done.
    + by destruct m'.
    + exists []. by rewrite app_nil_r.
    + constructor.
  - rewrite fmap_cons in Hnd. apply NoDup_cons in Hnd as [Hfresh Hnd].
    apply Forall_cons in Hall as [(s & Hs & Ht & Hin) Hall].
    destruct (import_step_spec m' cc s Hs Ht Hin Hfiled) as [extra Hstep].
    cbn [foldl]. rewrite Hstep.
    set (o := length (store m' ++ extra)) in *.
    set (m'' := with_registry m' (languages m')
                  (<[s := imported_classifier cc o]> (classifiers m'))
                  ((store m' ++ extra) ++ [decoded_observations cc])) in *.
    destruct (IH m'') as (bound & σ2 & Hfold & [extra2 Hσ2] & Hother & Hfiled2 & Hcs & Hsorted).
    { done. }
    { done. }
    { apply map_Forall_insert_2; [by rewrite <-Hs|done]. }
    exists bound, σ2.
    assert (Hbs : bound !! s = Some (imported_classifier cc o)).
    { rewrite Hother; [by apply lookup_insert_eq|]. by rewrite <-Hs. }
    assert (Hlen : length (store m'') = S o).
    { subst m'' o. simpl. rewrite !length_app. simpl. lia. }
    refine (conj Hfold (conj _ (conj _ (conj Hfiled2 (conj _ _))))).
    + exists (extra ++ [decoded_observations cc] ++ extra2).
      rewrite Hσ2. subst m''. simpl. by rewrite <-!app_assoc.
    + intros k Hk. rewrite fmap_cons in Hk. apply not_elem_of_cons in Hk as [Hk1 Hk2].
      rewrite Hother by done. subst m''. simpl. rewrite lookup_insert_ne; [done|].
      intros ->. by rewrite Hs in Hk1.
    + apply Forall_cons. split.
      * exists o. rewrite Hs. simpl. split; [done|]. split.
        { subst o. rewrite length_app. lia. }
        rewrite Hσ2. rewrite lookup_app_l by lia.
        subst m''. simpl. by apply list_lookup_middle.
      * eapply Forall_impl; [exact Hcs|]. intros cc' (o' & Hb & Hle & Hl).
        exists o'. split; [done|]. split; [|done].
        subst o. rewrite length_app in *. lia.
    + rewrite fmap_cons. cbn [omap list_omap]. rewrite Hs. simpl. rewrite Hbs. simpl.
      apply SSorted_cons; [done|].
      apply Forall_forall. intros o' Ho'.
      apply list_elem_of_omap in Ho' as (l & Hl & Hol).
      apply list_elem_of_fmap in Hl as (cc' & -> & Hcc').
      rewrite Forall_forall in Hcs. destruct (Hcs cc' Hcc') as (o'' & Hb & Hle & _).
      rewrite Hb in Hol. simpl in Hol. injection Hol as <-. lia.
Qed.

(** *** export, import, export *)

Lemma json_elem_strings m : registry_ok m → json_elem <$> languages m = languages m.
Proof.
  intros (_ & Hall & _). induction Hall as [|l ls Hl _ IH]; [done|].
  rewrite fmap_cons, IH. f_equal. unfold language_ok in Hl. by destruct l.
Qed.

Lemma json_settings_idemp (s : @Settings Data) :
  json_settings (json_settings s) = json_settings s.
Proof. done. Qed.

(** The classifier of a registered language, and its clone in the document. *)
Lemma document_classifier m (l : jsval) :
  registry_ok m → l ∈ languages m →
  ∃ (s : string) c obs,
    l = JStr s ∧ getTruncatedLocale l = l ∧
    classifiers m !! s = Some c ∧ cl_language c = l ∧
    store m !! lrc_observations c = Some obs ∧
    encoded_classifier (store m) c ∈ c_classifiers (document_of m).
Proof.
  intros Hok Hl.
  destruct (registry_ok_bound m l Hok Hl) as (s & c & obs & -> & Ht & Hc & Hlang & Hobs).
  exists s, c, obs. repeat (split; [done|]).
  simpl. apply list_elem_of_omap. exists (JStr s). split; [done|].
  simpl. by rewrite Hc.
Qed.

Lemma encoded_languages m (σ : Store) (ls : list jsval) :
  Forall (language_ok m) ls →
  cc_language <$> omap (λ l, encoded_classifier σ <$> classifiers m !! prop_key l) ls
  = ls.
Proof.
  induction 1 as [|l ls Hl _ IH]; [done|].
  unfold language_ok in Hl. destruct l as [| |s]; try done.
  destruct (classifiers m !! prop_key (JStr s)) as [c|] eqn:Hc; [|done].
  cbn [omap list_omap]. rewrite Hc. cbn [fmap option_fmap option_map].
  rewrite fmap_cons, IH. simpl. by destruct Hl as (_ & -> & _).
Qed.

Lemma document_languages m :
  registry_ok m → cc_language <$> c_classifiers (document_of m) = languages m.
Proof. intros (_ & Hall & _). by apply encoded_languages. Qed.

Lemma sparse_dense_sparse_matrix (n : nat) (obs : gmap string (list (list cell))) :
  sparse_matrix <$> (dense_matrix n <$> (sparse_matrix <$> obs))
  = sparse_matrix <$> obs.
Proof.
  rewrite <-!map_fmap_compose. apply map_fmap_ext. intros label rows _. simpl.
  unfold sparse_matrix, dense_matrix. rewrite <-!list_fmap_compose.
  apply list_fmap_ext. intros i r _. apply sparse_dense_sparse.
Qed.

Lemma encoded_imported (σ2 σ : Store) (c : @NlpClassifier Data) (o : nat) :
  σ2 !! o = Some (decoded_observations (encoded_classifier σ c)) →
  encoded_classifier σ2 (imported_classifier (encoded_classifier σ c) o)
  = encoded_classifier σ c.
Proof.
  intros Ho. unfold encoded_classifier at 1. simpl. rewrite Ho. simpl.
  unfold decoded_observations. simpl. rewrite sparse_dense_sparse_matrix.
  done.
Qed.

Lemma omap_ext_elem {A B} (f g : A → option B) (l : list A) :
  (∀ x, x ∈ l → f x = g x) → omap f l = omap g l.
Proof.
  induction l as [|x l IH]; intros Hfg; [done|].
  cbn [omap list_omap]. rewrite (Hfg x) by (apply elem_of_cons; by left).
  rewrite IH; [done|]. intros y Hy. apply Hfg, elem_of_cons. by right.
Qed.

(** Importing the document of a well-formed model, into any manager whose
    classifiers are filed under their languages, succeeds and leaves a
    well-formed model in which each language of the document is bound to the
    classifier the document describes, with the decoded observations. *)
Lemma import_document m m0 :
  registry_ok m → filed_under_language m0 →
  ∃ m2,
    import m0 (document_of m) = Ok m2 ∧
    registry_ok m2 ∧
    settings m2 = json_settings (settings m) ∧
    languages m2 = languages m ∧
    intentDomains m2 = intentDomains m ∧
    nerManager m2 = ner_load (nerManager m0) (ner_save (nerManager m)) ∧
    slotManager m2 = slot_load (slotManager m0) (slot_save (slotManager m)) ∧
    nlg_responses m2 = nlg_responses m ∧
    Forall (λ cc, ∃ o, classifiers m2 !! prop_key (cc_language cc)
                       = Some (imported_classifier cc o) ∧
                       store m2 !! o = Some (decoded_observations cc))
      (c_classifiers (document_of m)).
Proof.
  intros Hok Hfiled. unfold import.
  set (cs := c_classifiers (document_of m)).
  match goal with |- context [foldl import_step (Ok ?b) cs] => set (base := b) end.
  assert (Hlangs : languages base = languages m).
  { subst base. simpl. by apply json_elem_strings. }
  destruct (import_fold_spec cs base) as (bound & σ2 & Hfold & _ & _ & _ & Hcs & Hsorted).
  { subst cs. rewrite document_languages by done. apply Hok. }
  { apply Forall_forall. intros cc Hcc.
    assert (Hl : cc_language cc ∈ languages m).
    { rewrite <-(document_languages m Hok). by apply list_elem_of_fmap_2. }
    destruct (registry_ok_bound m _ Hok Hl) as (s & _ & _ & Hs & Ht & _).
    exists s. rewrite <-Hs, Hlangs. done. }
  { done. }
  rewrite Hlangs in Hfold. unfold cs in Hsorted.
  rewrite (document_languages m Hok) in Hsorted.
  eexists. split; [exact Hfold|].
  assert (Hcs' : Forall (λ cc, ∃ o, bound !! prop_key (cc_language cc)
                                   = Some (imported_classifier cc o) ∧
                                   σ2 !! o = Some (decoded_observations cc)) cs).
  { eapply Forall_impl; [exact Hcs|]. intros cc (o & ? & _ & ?). by exists o. }
  refine (conj _ (conj _ (conj _ (conj _ (conj _ (conj _ (conj _ Hcs'))))))); try done.
  split; [apply Hok|]. split.
  - apply Forall_forall. intros l Hl.
    destruct (document_classifier m l Hok Hl) as (s & c & obs & -> & Ht & Hc & Hlang & Hobs & Hin).
    rewrite Forall_forall in Hcs'. destruct (Hcs' _ Hin) as (o & Hb & Ho).
    simpl in Hb. rewrite Hlang in Hb. simpl in Hb.
    unfold language_ok. simpl. rewrite Hb. simpl.
    split; [done|]. split; [done|]. by eapply lookup_lt_Some.
  - by apply StronglySorted_lt_NoDup.
Qed.

(** The document of the imported model is the document imported. *)
Lemma document_of_imported m m2 :
  ner_save (nerManager m2) = ner_save (nerManager m) →
  slot_save (slotManager m2) = slot_save (slotManager m) →
  registry_ok m →
  settings m2 = json_settings (settings m) →
  languages m2 = languages m →
  intentDomains m2 = intentDomains m →
  nlg_responses m2 = nlg_responses m →
  Forall (λ cc, ∃ o, classifiers m2 !! prop_key (cc_language cc)
                     = Some (imported_classifier cc o) ∧
                     store m2 !! o = Some (decoded_observations cc))
    (c_classifiers (document_of m)) →
  document_of m2 = document_of m.
Proof.
  intros Hner Hslot Hok Hset Hlang Hdom Hnlg Hcs.
  unfold document_of at 1. rewrite Hner, Hslot, Hset, Hlang, Hdom, Hnlg.
  rewrite json_settings_idemp. unfold document_of. f_equal.
  apply omap_ext_elem. intros l Hl.
  destruct (document_classifier m l Hok Hl) as (s & c & obs & -> & Ht & Hc & Hcl & Hobs & Hin).
  rewrite Forall_forall in Hcs. destruct (Hcs _ Hin) as (o & Hb & Ho).
  simpl in Hb. rewrite Hcl in Hb. simpl in *. rewrite Hb, Hc. simpl.
  by rewrite encoded_imported.
Qed.

Lemma dense_sparse_binary_matrix (n : nat) (obs : gmap string (list (list cell))) :
  map_Forall (λ _ rows, Forall (binary_row n) rows) obs →
  map_Forall (λ _ rows, Forall no_column_0 rows) obs →
  dense_matrix n <$> (sparse_matrix <$> obs) = obs.
Proof.
  intros Hbin Hcol. rewrite <-map_fmap_compose.
  rewrite <-(map_fmap_id obs) at 2. apply map_fmap_ext.
  intros label rows Hrows. simpl.
  specialize (Hbin label rows Hrows). specialize (Hcol label rows Hrows).
  simpl in Hbin, Hcol. unfold dense_matrix, sparse_matrix.
  rewrite <-list_fmap_compose. rewrite <-(list_fmap_id rows) at 2.
  apply list_fmap_ext. intros i r Hr. simpl.
  rewrite Forall_forall in Hbin, Hcol.
  apply dense_sparse_binary; [apply Hbin|apply Hcol]; by eapply list_elem_of_lookup_2.
Qed.

(** Whatever the rows hold, column 0 included, the second document is the
    first: what [export] drops it drops the first time. *)
Lemma export_import_export m m0 (minified minified' : bool) :
  ner_save_load → slot_save_load →
  registry_ok m → filed_under_language m0 →
  ∃ document m1 m2 m3,
    export m minified = Ok (document, m1) ∧
    import m0 document = Ok m2 ∧
    export m2 minified' = Ok (document, m3).
Proof.
  intros Hner Hslot Hok Hfiled.
  destruct (import_document m m0 Hok Hfiled)
    as (m2 & Himp & Hok2 & Hset & Hlang & Hdom & Hn & Hs & Hnlg & Hcs).
  eexists (document_of m), _, m2, _.
  split; [by apply export_spec|]. split; [done|].
  rewrite (export_spec m2 minified' Hok2). do 2 f_equal.
  apply document_of_imported; try done.
  - rewrite Hn. apply Hner.
  - rewrite Hs. apply Hslot.
Qed.

(** C1. The codec round-trips: for a well-formed model whose observation
    rows are binary, one cell per feature, with no feature at column index 0,
    [export] succeeds, [import] of the exported document (into any manager
    whose classifiers are filed under their languages) succeeds, a second
    [export] returns the same document, and the imported model holds for each
    language the dense observation rows the exported model held.  The NER
    and slot managers are taken to save what they loaded. *)
Theorem codec_round_trip m m0 (minified minified' : bool) :
  ner_save_load → slot_save_load →
  registry_ok m → binary_model m → no_feature_at_column_0 m →
  filed_under_language m0 →
  ∃ document m1 m2 m3,
    export m minified = Ok (document, m1) ∧
    import m0 document = Ok m2 ∧
    export m2 minified' = Ok (document, m3) ∧
    Forall (λ l, observations_of m2 l = observations_of m l) (languages m).
Proof.
  intros Hner Hslot Hok Hbin Hcol Hfiled.
  destruct (import_document m m0 Hok Hfiled)
    as (m2 & Himp & Hok2 & Hset & Hlang & Hdom & Hn & Hs & Hnlg & Hcs).
  eexists (document_of m), _, m2, _.
  split; [by apply export_spec|]. split; [done|]. split.
  - rewrite (export_spec m2 minified' Hok2). do 2 f_equal.
    apply document_of_imported; try done.
    + rewrite Hn. apply Hner.
    + rewrite Hs. apply Hslot.
  - apply Forall_forall. intros l Hl.
    destruct (document_classifier m l Hok Hl) as (s & c & obs & -> & Ht & Hc & Hcl & Hobs & Hin).
    rewrite Forall_forall in Hcs. destruct (Hcs _ Hin) as (o & Hb & Ho).
    simpl in Hb. rewrite Hcl in Hb. simpl in Hb.
    unfold observations_of. simpl. rewrite Hb, Hc. simpl. rewrite Ho, Hobs.
    f_equal. unfold decoded_observations. simpl. rewrite Hobs. simpl.
    unfold binary_model, no_feature_at_column_0 in Hbin, Hcol.
    rewrite Forall_forall in Hbin, Hcol.
    specialize (Hbin _ Hl). specialize (Hcol _ Hl).
    unfold rows_of in Hbin, Hcol. simpl in Hbin, Hcol.
    rewrite Hc, Hobs in Hbin, Hcol.
    by apply dense_sparse_binary_matrix.
Qed.

(** *** More on the row codec *)

Lemma filter_seq_sorted (P : nat → Prop) `{!∀ x, Decision (P x)} (a n : nat) :
  StronglySorted lt (filter P (seq a n)).
Proof.
  revert a. induction n as [|n IH]; intros a; [constructor|].
  simpl. rewrite filter_cons. case_decide; [|apply IH].
  apply SSorted_cons; [apply IH|].
  apply Forall_forall. intros k [_ Hk%elem_of_seq]%list_elem_of_filter. lia.
Qed.

Lemma filter_seq_lookup_ge (P : nat → Prop) `{!∀ x, Decision (P x)}
    (a n j k : nat) :
  filter P (seq a n) !! j = Some k → a + j ≤ k.
Proof.
  revert a j. induction n as [|n IH]; intros a j; [done|].
  simpl. rewrite filter_cons. case_decide.
  - destruct j as [|j]; simpl.
    + intros [= ->]. lia.
    + intros Hj%IH. lia.
  - intros Hj%IH. lia.
Qed.

(** X1. The encoding of a row lists, in increasing order, exactly the columns
    other than column 0 that hold the number 1. *)
Theorem sparse_row_columns (r : row) :
  ∃ columns : list nat,
    sparse_row r = idx <$> columns ∧
    StronglySorted lt columns ∧
    ∀ k, k ∈ columns ↔ k ≠ 0 ∧ r !! k = Some (Num 1).
Proof.
  exists (filter (is_one r) (seq 0 (length r))).
  split; [apply sparse_row_seq|]. split; [apply filter_seq_sorted|].
  intros k. rewrite list_elem_of_filter, elem_of_seq. unfold is_one.
  split; [tauto|]. intros [Hk Hr]. split; [done|].
  apply lookup_lt_Some in Hr. lia.
Qed.

(** The position [j] of an encoded row holds a column above [j]. *)
Lemma sparse_row_lookup_gt (r : row) (j : nat) (c : cell) :
  sparse_row r !! j = Some c → ∃ k, c = idx k ∧ j < k.
Proof.
  rewrite sparse_row_seq, list_lookup_fmap. intros Hc.
  destruct (filter (is_one r) (seq 0 (length r)) !! j) as [k|] eqn:Hk; [|done].
  injection Hc as <-. exists k. split; [done|].
  destruct (length r) as [|n]; [done|].
  simpl in Hk. rewrite filter_cons_False in Hk by (by intros [? _]).
  apply filter_seq_lookup_ge in Hk. lia.
Qed.

(** Encoding an encoded row gives the empty row: past position 0 an
    encoded row holds columns above 1, and position 0 is never listed. *)
Lemma sparse_row_twice (r : row) : sparse_row (sparse_row r) = [].
Proof.
  rewrite (sparse_row_seq (sparse_row r)).
  replace (filter _ _) with (@nil nat); [done|].
  symmetry. apply elem_of_nil_inv.
  intros j [[Hj Hone] _]%list_elem_of_filter.
  apply sparse_row_lookup_gt in Hone as (k & [= Hk] & Hlt). lia.
Qed.

(** Decoding an encoded binary row restores every column but column 0,
    which it leaves at 0. *)
Lemma dense_sparse_zeroes_column_0 (n : nat) (r : row) :
  binary_row n r → dense_row n (sparse_row r) = <[0 := Num 0]> r.
Proof.
  intros [Hlen Hbin].
  assert (Hsame : sparse_row (<[0 := Num 0]> r) = sparse_row r).
  { rewrite !sparse_row_seq, length_insert. f_equal.
    apply list_filter_iff. intros i. unfold is_one.
    destruct (decide (i = 0)) as [->|Hi]; [tauto|].
    by rewrite list_lookup_insert_ne. }
  rewrite <-Hsame. apply dense_sparse_binary.
  - split; [by rewrite length_insert|]. apply Forall_insert; [done|by left].
  - unfold no_column_0. destruct r as [|c r]; [done|]. done.
Qed.

Lemma array_set_length (l : row) (i : nat) (v : cell) :
  length (array_set l i v) = length l `max` S i.
Proof.
  unfold array_set. case_decide.
  - rewrite length_insert. lia.
  - rewrite !length_app, length_replicate. simpl. lia.
Qed.

Lemma dense_fold_length (positions acc : row) :
  length acc ≤ length (foldl set_feature acc positions) ∧
  (∀ z, Num z ∈ positions → (0 ≤ z)%Z →
        Z.to_nat z < length (foldl set_feature acc positions)) ∧
  ((∀ z, Num z ∈ positions → (0 ≤ z)%Z → Z.to_nat z < length acc) →
   length (foldl set_feature acc positions) = length acc).
Proof.
  revert acc. induction positions as [|p ps IH]; intros acc.
  - simpl. split; [done|]. split; [by intros z ?%elem_of_nil|done].
  - cbn [foldl]. destruct (IH (set_feature acc p)) as (Hge & Hin & Heq).
    assert (Hstep : length acc ≤ length (set_feature acc p)).
    { unfold set_feature. destruct p; try done. case_decide; [|done].
      rewrite array_set_length. lia. }
    split; [lia|]. split.
    + intros z [[= <-]|Hz]%elem_of_cons Hz0; [|by apply Hin].
      assert (Hp : length (set_feature acc (Num z)) = length acc `max` S (Z.to_nat z)).
      { unfold set_feature. rewrite decide_True by done. apply array_set_length. }
      lia.
    + intros Hall.
      assert (Hp : length (set_feature acc p) = length acc).
      { unfold set_feature. destruct p as [| | |z]; try done.
        case_decide as Hz; [|done]. rewrite array_set_length.
        assert (Hz' : Num z ∈ Num z :: ps) by (apply elem_of_cons; by left).
        specialize (Hall z Hz' Hz). lia. }
      rewrite Heq; [done|]. intros z Hz Hz0. rewrite Hp.
      apply Hall; [|done]. apply elem_of_cons. by right.
Qed.


(** *** More on the registry *)

Lemma with_registry_same m : with_registry m (languages m) (classifiers m) (store m) = m.
Proof. by destruct m. Qed.

Lemma addLanguage_step_known m locale :
  getTruncatedLocale locale ∈ languages m →
  is_Some (classifiers m !! prop_key (getTruncatedLocale locale)) →
  addLanguage_step m locale = m.
Proof.
  intros Hin [c Hc]. unfold addLanguage_step.
  rewrite decide_True by done. rewrite Hc. apply with_registry_same.
Qed.

Lemma addLanguage_steps_known m (ls : list jsval) :
  Forall (λ l, getTruncatedLocale l ∈ languages m ∧
               is_Some (classifiers m !! prop_key (getTruncatedLocale l))) ls →
  foldl addLanguage_step m ls = m.
Proof.
  induction 1 as [|l ls [Hin Hb] _ IH]; [done|].
  simpl. by rewrite addLanguage_step_known.
Qed.

Lemma addLanguage_steps_bind m (ls : list jsval) (l : jsval) :
  l ∈ ls →
  getTruncatedLocale l ∈ languages (foldl addLanguage_step m ls) ∧
  is_Some (classifiers (foldl addLanguage_step m ls)
             !! prop_key (getTruncatedLocale l)).
Proof.
  revert m. induction ls as [|x ls IH]; intros m; [by intros ?%elem_of_nil|].
  intros [->|Hl]%elem_of_cons; [|by apply IH]. simpl.
  clear IH. generalize (addLanguage_step_adds m x) (addLanguage_step_bound m x).
  generalize (addLanguage_step m x). clear m.
  induction ls as [|y ls IH]; intros m Hin Hb; [done|].
  simpl. apply IH.
  - by apply addLanguage_step_mono.
  - destruct Hb as [c Hc]. exists c. by apply addLanguage_step_classifier.
Qed.

(** X3. [addLanguage] is idempotent: a second call with the same locales leaves
    the manager exactly as the first call left it. *)
Theorem addLanguage_idempotent m (srcLocales : locales) :
  addLanguage (addLanguage m srcLocales) srcLocales = addLanguage m srcLocales.
Proof.
  unfold addLanguage at 1. apply addLanguage_steps_known.
  apply Forall_forall. intros l Hl. by apply addLanguage_steps_bind.
Qed.

(** One step of [addLanguage]: what it keeps and what it may add. *)
Lemma addLanguage_step_frame m locale :
  let m' := addLanguage_step m locale in
  languages m `prefix_of` languages m' ∧
  store m `prefix_of` store m' ∧
  (settings m' = settings m ∧ intentDomains m' = intentDomains m ∧
   nerManager m' = nerManager m ∧ slotManager m' = slotManager m ∧
   nlg_responses m' = nlg_responses m) ∧
  (∀ x, x ∈ languages m' ↔ x ∈ languages m ∨ x = getTruncatedLocale locale) ∧
  (∀ k c, classifiers m' !! k = Some c →
     classifiers m !! k = Some c ∨
     ∃ o, k = prop_key (getTruncatedLocale locale) ∧
          c = new_NlpClassifier (getTruncatedLocale locale) o ∧
          length (store m) ≤ o ∧ store m' !! o = Some init_observations).
Proof.
  intros m'. subst m'.
  assert (Hls : languages m `prefix_of` languages (addLanguage_step m locale) ∧
    ∀ x, x ∈ languages (addLanguage_step m locale)
         ↔ x ∈ languages m ∨ x = getTruncatedLocale locale).
  { rewrite addLanguage_step_languages. case_decide as Hin.
    - split; [done|]. intros x. split; [by left|]. by intros [?| ->].
    - split; [by apply prefix_app_r|]. intros x.
      rewrite elem_of_app, list_elem_of_singleton. done. }
  destruct Hls as [Hpre Hmem]. unfold addLanguage_step in *.
  destruct (classifiers m !! prop_key (getTruncatedLocale locale)) as [c0|] eqn:E;
    simpl in *.
  - refine (conj Hpre (conj _ (conj _ (conj Hmem _)))); try done.
    intros k c Hk. by left.
  - refine (conj Hpre (conj _ (conj _ (conj Hmem _)))); try done.
    + by apply prefix_app_r.
    + intros k c Hk. destruct (decide (k = prop_key (getTruncatedLocale locale))) as [->|Hne].
      * rewrite lookup_insert_eq in Hk. injection Hk as <-. right.
        exists (length (store m)). repeat (split; [done|]).
        by apply list_lookup_middle.
      * rewrite lookup_insert_ne in Hk by done. by left.
Qed.

Lemma addLanguage_frame m (srcLocales : locales) :
  let m' := addLanguage m srcLocales in
  languages m `prefix_of` languages m' ∧
  store m `prefix_of` store m' ∧
  (settings m' = settings m ∧ intentDomains m' = intentDomains m ∧
   nerManager m' = nerManager m ∧ slotManager m' = slotManager m ∧
   nlg_responses m' = nlg_responses m) ∧
  (∀ x, x ∈ languages m' ↔
        x ∈ languages m ∨ x ∈ getTruncatedLocale <$> to_array srcLocales) ∧
  (∀ k c, classifiers m' !! k = Some c →
     classifiers m !! k = Some c ∨
     ∃ l o, l ∈ to_array srcLocales ∧ k = prop_key (getTruncatedLocale l) ∧
            c = new_NlpClassifier (getTruncatedLocale l) o ∧
            length (store m) ≤ o ∧ store m' !! o = Some init_observations).
Proof.
  unfold addLanguage. generalize (to_array srcLocales). intros ls. revert m.
  induction ls as [|l ls IH]; intros m; simpl.
  - refine (conj _ (conj _ (conj _ (conj _ _)))); try done.
    + intros x. split; [by left|]. by intros [?|?%elem_of_nil].
    + intros k c Hk. by left.
  - destruct (addLanguage_step_frame m l) as (Hl1 & Hs1 & (Ha & Hb & Hc & Hd & He) & Hm1 & Hc1).
    destruct (IH (addLanguage_step m l)) as (Hl2 & Hs2 & (Ha2 & Hb2 & Hc2 & Hd2 & He2) & Hm2 & Hcl2).
    refine (conj _ (conj _ (conj _ (conj _ _)))).
    + by etrans.
    + by etrans.
    + by rewrite Ha2, Hb2, Hc2, Hd2, He2.
    + intros x. rewrite Hm2, Hm1, elem_of_cons. tauto.
    + intros k c Hk. destruct (Hcl2 k c Hk) as [Hold|(l' & o & Hl' & -> & -> & Hle & Ho)].
      * destruct (Hc1 k c Hold) as [?|(o & -> & -> & Hle & Ho)]; [by left|].
        right. exists l, o. split; [by apply elem_of_cons; left|].
        repeat (split; [done|]).
        destruct Hs2 as [extra Hextra]. rewrite Hextra.
        rewrite lookup_app_l; [done|]. by eapply lookup_lt_Some.
      * right. exists l', o. split; [apply elem_of_cons; by right|].
        repeat (split; [done|]). split; [|done].
        apply prefix_length in Hs1. lia.
Qed.

(** X4. [addLanguage] only appends: the locales already listed keep their
    places, the observation objects already stored are untouched, every
    other field stays, the locales listed afterwards are the old ones and
    the truncations of the ones given, and a classifier bound afterwards is
    an old one or a new, untrained one with an observations object of its
    own. *)
Theorem addLanguage_appends m (srcLocales : locales) :
  let m' := addLanguage m srcLocales in
  languages m `prefix_of` languages m' ∧
  store m `prefix_of` store m' ∧
  (settings m' = settings m ∧ intentDomains m' = intentDomains m ∧
   nerManager m' = nerManager m ∧ slotManager m' = slotManager m ∧
   nlg_responses m' = nlg_responses m) ∧
  (∀ x, x ∈ languages m' ↔
        x ∈ languages m ∨ x ∈ getTruncatedLocale <$> to_array srcLocales) ∧
  (∀ k c, classifiers m' !! k = Some c →
     classifiers m !! k = Some c ∨
     ∃ l o, l ∈ to_array srcLocales ∧ k = prop_key (getTruncatedLocale l) ∧
            c = new_NlpClassifier (getTruncatedLocale l) o ∧
            length (store m) ≤ o ∧ store m' !! o = Some init_observations).
Proof. exact (addLanguage_frame m srcLocales). Qed.

(** X5. After [clear], [addLanguage] binds untrained classifiers only, each with
    an observations object created after the call: nothing of the
    classifiers bound before [clear] comes back. *)
Theorem clear_addLanguage_fresh m (srcLocales : locales) (k : string) c :
  classifiers (addLanguage (clear m) srcLocales) !! k = Some c →
  ∃ l o, l ∈ to_array srcLocales ∧ k = prop_key (getTruncatedLocale l) ∧
         c = new_NlpClassifier (getTruncatedLocale l) o ∧
         length (store m) ≤ o ∧
         store (addLanguage (clear m) srcLocales) !! o = Some init_observations.
Proof.
  intros Hk.
  destruct (addLanguage_frame (clear m) srcLocales) as (_ & _ & _ & _ & Hc).
  destruct (Hc k c Hk) as [Hold|Hnew]; [|done].
  simpl in Hold. by rewrite lookup_empty in Hold.
Qed.

Lemma addLanguage_settings m (srcLocales : locales) :
  settings (addLanguage m srcLocales) = settings m.
Proof. by destruct (addLanguage_frame m srcLocales) as (_ & _ & (-> & _) & _). Qed.

(** X6. A new manager has full search enabled unless its settings say
    otherwise, has no intent assigned to a domain, and lists exactly the
    truncations of the locales its settings give. *)
Theorem new_NlpManager_defaults (srcSettings : option (@Settings Data)) :
  let m := new_NlpManager srcSettings in
  fullSearchWhenGuessed m
  = default true (srcSettings ≫= st_fullSearchWhenGuessed) ∧
  intentDomains m = ∅ ∧
  (∀ x, x ∈ languages m ↔
        ∃ ls, languages_given (srcSettings ≫= st_languages) = Some ls ∧
              x ∈ getTruncatedLocale <$> to_array ls).
Proof.
  unfold new_NlpManager, fullSearchWhenGuessed.
  assert (Hs : st_languages (default empty_settings srcSettings)
               = srcSettings ≫= st_languages) by (by destruct srcSettings).
  assert (Hf : st_fullSearchWhenGuessed (default empty_settings srcSettings)
               = srcSettings ≫= st_fullSearchWhenGuessed) by (by destruct srcSettings).
  rewrite Hs. destruct (languages_given _) as [ls|].
  - match goal with |- context [addLanguage ?m0 ls] =>
      destruct (addLanguage_frame m0 ls) as (_ & _ & (Ha & Hb & _) & Hm & _) end.
    rewrite Ha, Hb. simpl. rewrite Hf. split; [done|]. split; [done|].
    intros x. rewrite Hm. simpl. split.
    + intros [?%elem_of_nil|?]; [done|]. by exists ls.
    + intros (ls' & [= <-] & ?). by right.
  - simpl. rewrite Hf. split; [done|]. split; [done|].
    intros x. split; [by intros ?%elem_of_nil|]. by intros (? & [=] & _).
Qed.

(** *** Domains *)

Lemma getDomains_fold_thrown m (keys : list string) (e : error) :
  foldl (getDomains_step m) (Throw e) keys = Throw e.
Proof. induction keys as [|k keys IH]; [done|]. simpl. apply IH. Qed.

Lemma getDomains_from_spec m (keys : list string) :
  NoDup keys →
  Forall (λ k, is_Some (intentDomains m !! k)) keys →
  match getDomains_from m keys with
  | Ok result =>
      (∀ intent domain,
         intent ∈ keys → intentDomains m !! intent = Some domain →
         domain ∉ Object_prototype) ∧
      (∀ domain intent,
         intent ∈ default [] (result !! domain) ↔
         intent ∈ keys ∧ intentDomains m !! intent = Some domain) ∧
      (∀ domain intents,
         result !! domain = Some intents → intents ≠ [] ∧ NoDup intents)
  | Throw e =>
      e = TypeError ∧
      ∃ intent domain,
        intent ∈ keys ∧ intentDomains m !! intent = Some domain ∧
        domain ∈ Object_prototype
  end.
Proof.
  unfold getDomains_from.
  induction keys as [|k keys IH] using rev_ind; intros Hnd Hall.
  - simpl. split; [by intros ?? ?%elem_of_nil|]. split.
    + intros domain intent. rewrite lookup_empty. simpl.
      split; [by intros ?%elem_of_nil|by intros [?%elem_of_nil _]].
    + intros domain intents. by rewrite lookup_empty.
  - apply NoDup_app in Hnd as (Hnd & Hfresh & _).
    apply Forall_app in Hall as [Hall [[d0 Hd0] _]%Forall_cons].
    specialize (IH Hnd Hall). rewrite foldl_snoc.
    destruct (foldl (getDomains_step m) (Ok ∅) keys) as [R|e].
    2:{ destruct IH as (-> & intent & domain & Hin & Hd & Hp). split; [done|].
        exists intent, domain. split; [|done]. apply elem_of_app. by left. }
    destruct IH as (Hown & Hmem & Hlists).
    assert (Hk : k ∉ default [] (R !! d0)).
    { intros [Hin _]%Hmem. apply (Hfresh k Hin). by apply list_elem_of_singleton. }
    assert (Hstep : getDomains_step m (Ok R) k
                    = match R !! d0 with
                      | Some intents => Ok (<[d0 := intents ++ [k]]> R)
                      | None => if decide (d0 ∈ Object_prototype) then Throw TypeError
                                else Ok (<[d0 := [k]]> R)
                      end).
    { unfold getDomains_step. simpl. by rewrite Hd0. }
    rewrite Hstep. clear Hstep.
    assert (Hgoal : ∀ intents,
              default [] (R !! d0) = intents → d0 ∉ Object_prototype →
              (∀ intent domain,
                 intent ∈ keys ++ [k] → intentDomains m !! intent = Some domain →
                 domain ∉ Object_prototype) ∧
              (∀ domain intent,
                 intent ∈ default [] (<[d0 := intents ++ [k]]> R !! domain) ↔
                 intent ∈ keys ++ [k] ∧ intentDomains m !! intent = Some domain) ∧
              (∀ domain listed,
                 <[d0 := intents ++ [k]]> R !! domain = Some listed →
                 listed ≠ [] ∧ NoDup listed)).
    { intros intents Hintents Hd0own. subst intents. split; [|split].
      - intros intent domain [Hin| ->%list_elem_of_singleton]%elem_of_app Hd.
        + by eapply Hown.
        + congruence.
      - intros domain intent. rewrite elem_of_app, list_elem_of_singleton.
        destruct (decide (domain = d0)) as [->|Hne].
        + rewrite lookup_insert_eq. simpl. rewrite elem_of_app, list_elem_of_singleton.
          rewrite Hmem. split; [intros [[??]| ->]; auto|].
          intros [[?| ->] ?]; auto.
        + rewrite lookup_insert_ne by done. rewrite Hmem.
          split; [intros [??]; auto|]. intros [[?| ->] ?]; [done|congruence].
      - intros domain listed. destruct (decide (domain = d0)) as [->|Hne].
        + rewrite lookup_insert_eq. intros [= <-]. split.
          { by destruct (default [] (R !! d0)). }
          apply NoDup_app. split.
          { destruct (R !! d0) as [l|] eqn:E; [by eapply Hlists|apply NoDup_nil_2]. }
          split; [|apply NoDup_singleton].
          intros x Hx ->%list_elem_of_singleton. done.
        + rewrite lookup_insert_ne by done. apply Hlists. }
    destruct (R !! d0) as [intents|] eqn:HR.
    + apply (Hgoal intents); [done|].
      destruct (Hlists d0 intents HR) as [Hne _].
      destruct intents as [|x intents]; [done|].
      assert (Hx : x ∈ default [] (R !! d0)) by (rewrite HR; apply elem_of_cons; by left).
      apply Hmem in Hx as [Hx Hxd]. by eapply Hown.
    + destruct (decide (d0 ∈ Object_prototype)) as [Hp|Hp].
      * split; [done|]. exists k, d0. split; [|done].
        apply elem_of_app. right. by apply list_elem_of_singleton.
      * apply (Hgoal []); done.
Qed.

Lemma getDomains_spec m :
  match getDomains m with
  | Ok result =>
      (∀ intent domain,
         getIntentDomain m intent = Some domain → domain ∉ Object_prototype) ∧
      (∀ domain intent,
         intent ∈ default [] (result !! domain) ↔
         getIntentDomain m intent = Some domain) ∧
      (∀ domain intents,
         result !! domain = Some intents → intents ≠ [] ∧ NoDup intents)
  | Throw e =>
      e = TypeError ∧
      ∃ intent domain,
        getIntentDomain m intent = Some domain ∧ domain ∈ Object_prototype
  end.
Proof.
  unfold getDomains, Object_keys, getIntentDomain.
  assert (Hkeys : ∀ intent domain,
            intentDomains m !! intent = Some domain →
            intent ∈ (map_to_list (intentDomains m)).*1).
  { intros intent domain Hd. apply list_elem_of_fmap. exists (intent, domain).
    split; [done|]. by apply elem_of_map_to_list. }
  pose proof (getDomains_from_spec m (map_to_list (intentDomains m)).*1) as Hspec.
  destruct (getDomains_from m _) as [result|e].
  - destruct Hspec as (Hown & Hmem & Hlists).
    + apply NoDup_fst_map_to_list.
    + apply Forall_forall. intros k [[k' d] [-> Hkd]]%list_elem_of_fmap.
      apply elem_of_map_to_list in Hkd. by exists d.
    + split; [|split; [|done]].
      * intros intent domain Hd. eapply Hown; [by eapply Hkeys|done].
      * intros domain intent. rewrite Hmem. split; [tauto|].
        intros Hd. split; [by eapply Hkeys|done].
  - destruct Hspec as (-> & intent & domain & _ & Hd & Hp).
    + apply NoDup_fst_map_to_list.
    + apply Forall_forall. intros k [[k' d] [-> Hkd]]%list_elem_of_fmap.
      apply elem_of_map_to_list in Hkd. by exists d.
    + split; [done|]. by exists intent, domain.
Qed.

(** X7. [getDomains] fails, with a [TypeError], exactly when some intent has a
    domain named like a member of [Object.prototype].  Otherwise it groups
    the intents by domain: an intent is listed under a domain exactly when
    that domain is assigned to it, so every assigned intent is listed under
    one domain and no other; no domain has an empty list and no list names
    an intent twice. *)
Theorem getDomains_groups m :
  (∀ e, getDomains m = Throw e ↔
        e = TypeError ∧
        ∃ intent domain,
          getIntentDomain m intent = Some domain ∧ domain ∈ Object_prototype) ∧
  (∀ result,
     getDomains m = Ok result →
     (∀ domain intent,
        intent ∈ default [] (result !! domain) ↔
        getIntentDomain m intent = Some domain) ∧
     (∀ domain intents,
        result !! domain = Some intents → intents ≠ [] ∧ NoDup intents)).
Proof.
  pose proof (getDomains_spec m) as Hspec.
  destruct (getDomains m) as [result|e0]; split.
  - intros e. split; [done|]. intros (_ & intent & domain & Hd & Hp).
    destruct Hspec as (Hown & _). by destruct (Hown intent domain Hd).
  - intros result' [= <-]. by destruct Hspec as (_ & ? & ?).
  - intros e. destruct Hspec as (-> & Hex). split.
    + by intros [= <-].
    + by intros [-> _].
  - done.
Qed.


(** *** Documents *)

Context `{!@Authoring Data Ner Slot}.

(** The locale [addDocument] and [removeDocument] look a classifier up
    under: the truncated locale when there is one, else the guess, as the
    guesser gives it. *)
Lemma classifier_for_document_spec m srcLocale utterance :
  match classifier_for_document m srcLocale utterance with
  | Ok (locale, classifier) =>
      falsy locale = false ∧
      locale = (if falsy (getTruncatedLocale srcLocale)
                then guessLanguage m utterance
                else getTruncatedLocale srcLocale) ∧
      classifiers m !! prop_key locale = Some classifier
  | Throw e =>
      let locale := if falsy (getTruncatedLocale srcLocale)
                    then guessLanguage m utterance
                    else getTruncatedLocale srcLocale in
      (falsy locale = true ∧ e = Error "Locale must be defined") ∨
      (falsy locale = false ∧ classifiers m !! prop_key locale = None ∧
       e = Error ("Classifier not found for locale " +:+ prop_key locale))
  end.
Proof.
  unfold classifier_for_document.
  set (locale := if falsy (getTruncatedLocale srcLocale)
                 then guessLanguage m utterance
                 else getTruncatedLocale srcLocale).
  destruct (falsy locale) eqn:Hf; [by left|].
  destruct (classifiers m !! prop_key locale) as [c|] eqn:Hc; [done|].
  by right.
Qed.

(** X9. [addDocument] and [removeDocument] fail in the same two cases and in no
    other: no locale (the given one truncates to nothing and the guesser
    finds none) raises "Locale must be defined"; a locale with no classifier
    bound raises "Classifier not found for locale" followed by the locale.
    A guessed locale is looked up as the guesser gives it. *)
Theorem document_errors m srcLocale utterance (intent : string) (e : error) :
  let locale := if falsy (getTruncatedLocale srcLocale)
                then guessLanguage m utterance
                else getTruncatedLocale srcLocale in
  (addDocument m srcLocale utterance intent = Throw e ↔
   removeDocument m srcLocale utterance intent = Throw e) ∧
  (addDocument m srcLocale utterance intent = Throw e ↔
   (falsy locale = true ∧ e = Error "Locale must be defined") ∨
   (falsy locale = false ∧ classifiers m !! prop_key locale = None ∧
    e = Error ("Classifier not found for locale " +:+ prop_key locale))).
Proof.
  intros locale.
  pose proof (classifier_for_document_spec m srcLocale utterance) as Hspec.
  unfold addDocument, removeDocument. fold locale in Hspec.
  destruct (classifier_for_document m srcLocale utterance) as [[l c]|e'] eqn:E; simpl.
  - destruct Hspec as (Hf & -> & Hc). split; [done|]. split; [done|].
    intros [[Hf' _]|(_ & Hc' & _)]; congruence.
  - split; [done|]. split.
    + intros [= <-]. done.
    + intros Hcases. f_equal.
      destruct Hspec as [[Hf ->]|(Hf & Hc & ->)],
               Hcases as [[Hf' ->]|(Hf' & Hc' & ->)]; congruence.
Qed.

(** X10. A locale just added can be written to: after [addLanguage] of a locale
    whose truncation is a locale, [addDocument] for it succeeds. *)
Theorem addDocument_after_addLanguage m (locale utterance : jsval)
    (intent : string) :
  falsy (getTruncatedLocale locale) = false →
  ∃ m', addDocument (addLanguage m (One locale)) locale utterance intent = Ok m'.
Proof.
  intros Hf.
  destruct (addLanguage_steps_bind m [locale] locale) as [_ [c Hc]].
  { by apply list_elem_of_singleton. }
  change (foldl addLanguage_step m [locale])
    with (addLanguage m (One locale)) in Hc.
  assert (Hcl : classifier_for_document (addLanguage m (One locale)) locale utterance
                = Ok (getTruncatedLocale locale, c)).
  { unfold classifier_for_document. rewrite Hf. cbv zeta. by rewrite Hf, Hc. }
  unfold addDocument. rewrite Hcl. simpl. by eexists.
Qed.

(** X11. What a successful [addDocument] changes: the classifier of the locale,
    which takes the document; the domain of the intent, which becomes
    "default" if the intent had none, and stays what it was if it had one;
    the slot manager, which takes the entities of the utterance.  An intent
    named like a member of [Object.prototype] is given no domain.  The
    locales, the locales bound, the other intents and the store stay. *)
Theorem addDocument_effects m srcLocale utterance (intent : string) m' :
  addDocument m srcLocale utterance intent = Ok m' →
  languages m' = languages m ∧
  store m' = store m ∧
  (∃ locale classifier,
     classifiers m !! prop_key locale = Some classifier ∧
     classifiers m'
     = <[prop_key locale := classifier_add classifier utterance intent]>
         (classifiers m)) ∧
  (∀ k, is_Some (classifiers m' !! k) ↔ is_Some (classifiers m !! k)) ∧
  (intent ∉ Object_prototype →
   getIntentDomain m' intent
   = Some (default "default"%string (getIntentDomain m intent))) ∧
  (intent ∈ Object_prototype → intentDomains m' = intentDomains m) ∧
  (∀ other, other ≠ intent → getIntentDomain m' other = getIntentDomain m other) ∧
  slotManager m'
  = slot_addBatch (slotManager m) intent
      (getEntitiesFromUtterance (nerManager m) utterance).
Proof.
  unfold addDocument.
  pose proof (classifier_for_document_spec m srcLocale utterance) as Hspec.
  destruct (classifier_for_document m srcLocale utterance) as [[l c]|e']; [|done].
  destruct Hspec as (_ & _ & Hc). simpl. unfold getIntentDomain. simpl.
  intros [= <-].
  assert (Hkeys : ∀ k, is_Some (<[prop_key l := classifier_add c utterance intent]>
                                  (classifiers m) !! k)
                       ↔ is_Some (classifiers m !! k)).
  { intros k. destruct (decide (k = prop_key l)) as [->|Hne].
    - rewrite lookup_insert_eq, Hc. split; eauto.
    - by rewrite lookup_insert_ne. }
  destruct (intentDomains m !! intent) as [d|] eqn:Hd; simpl.
  - repeat (split; [done|]). split; [by exists l, c|]. split; [done|].
    split; [by rewrite Hd|]. done.
  - destruct (decide (intent ∈ Object_prototype)) as [Hp|Hp]; simpl.
    + repeat (split; [done|]). split; [by exists l, c|]. split; [done|].
      split; [done|]. done.
    + repeat (split; [done|]). split; [by exists l, c|]. split; [done|].
      split; [by rewrite lookup_insert_eq|]. split; [done|]. split; [|done].
      intros other Hne. by rewrite lookup_insert_ne.
Qed.

(** X12. What a successful [removeDocument] changes: the classifier of the
    locale, and nothing else.  The intent keeps its domain and the slot
    manager what it learnt of the intent. *)
Theorem removeDocument_effects m srcLocale utterance (intent : string) m' :
  removeDocument m srcLocale utterance intent = Ok m' →
  languages m' = languages m ∧
  store m' = store m ∧
  intentDomains m' = intentDomains m ∧
  slotManager m' = slotManager m ∧
  (∃ locale classifier,
     classifiers m !! prop_key locale = Some classifier ∧
     classifiers m'
     = <[prop_key locale := classifier_remove classifier utterance intent]>
         (classifiers m)) ∧
  (∀ k, is_Some (classifiers m' !! k) ↔ is_Some (classifiers m !! k)).
Proof.
  unfold removeDocument.
  pose proof (classifier_for_document_spec m srcLocale utterance) as Hspec.
  destruct (classifier_for_document m srcLocale utterance) as [[l c]|e']; [|done].
  destruct Hspec as (_ & _ & Hc). simpl. intros [= <-]. simpl.
  repeat (split; [done|]). split; [by exists l, c|].
  intros k. destruct (decide (k = prop_key l)) as [->|Hne].
  - rewrite lookup_insert_eq, Hc. split; eauto.
  - by rewrite lookup_insert_ne.
Qed.

(** *** More on process *)

Lemma process_not_thrown m srcLocale srcUtterance srcContext utterance locale
    guessed (classification : option (list entry)) :
  process_locale m srcLocale srcUtterance = (utterance, locale, guessed) →
  process_classification m utterance (getTruncatedLocale locale) guessed
  = Ok classification →
  ∃ r context, process m srcLocale srcUtterance srcContext = Ok (r, context).
Proof.
  intros Hloc Hcl. unfold process. rewrite Hloc, Hcl. simpl.
  destruct (process_outcome m classification) as [[intent domain] score].
  destruct (slot_process _ _ _) as [[[] r'] c']; simpl.
  - destruct (process_slots r' c'). by eexists _, _.
  - by eexists _, _.
Qed.


Lemma scan_step_keep_best m utterance best language :
  scan_step m utterance best language
  = keep_best best (classify m language utterance).
Proof. done. Qed.

Lemma scan_keep_best m utterance best :
  scan m utterance best
  = foldl keep_best best ((λ language, classify m language utterance) <$> languages m).
Proof.
  unfold scan. generalize (languages m). intros ls. revert best.
  induction ls as [|l ls IH]; intros best; [done|]. simpl. apply IH.
Qed.

(** The best of a run of classifications: none when no classification has a
    top score; otherwise the first one whose top score no other exceeds. *)
Lemma keep_best_spec (cs : list (option (list entry))) :
  match foldl keep_best (None, None) cs with
  | (None, None) => Forall (λ c, ∀ top rest, c ≠ Some (top :: rest)) cs
  | (Some s, Some (top :: rest)) =>
      s = value top ∧
      ∃ i, cs !! i = Some (Some (top :: rest)) ∧
           (∀ j c, j < i → cs !! j = Some c → top_below c (value top)) ∧
           Forall (λ c, top_at_most c (value top)) cs
  | _ => False
  end.
Proof.
  induction cs as [|c cs IH] using rev_ind; [by constructor|].
  rewrite foldl_snoc.
  destruct (foldl keep_best (None, None) cs) as [[s|] [[|top rest]|]]; try done.
  - destruct IH as (-> & i & Hi & Hbefore & Hall).
    assert (Hbefore' : ∀ x j c', j < i → (cs ++ [x]) !! j = Some c' →
                                  top_below c' (value top)).
    { intros x j c' Hj Hc'. apply lookup_lt_Some in Hi.
      rewrite lookup_app_l in Hc' by lia. by eapply Hbefore. }
    unfold keep_best. destruct c as [[|t ts]|]; simpl.
    + split; [done|]. exists i. split; [by apply lookup_app_l_Some|].
      split; [by apply Hbefore'|]. apply Forall_app. split; [done|]. by apply Forall_singleton.
    + destruct (gt (value t) (value top)) eqn:Hgt.
      * apply gt_lt in Hgt. split; [done|]. exists (length cs).
        split; [by apply list_lookup_middle|]. split.
        -- intros j c Hj Hc. rewrite lookup_app_l in Hc by done.
           rewrite Forall_forall in Hall.
           specialize (Hall c (list_elem_of_lookup_2 _ _ _ Hc)).
           destruct c as [[|t' ts']|]; try done. simpl in *.
           by eapply Qle_lt_trans.
        -- apply Forall_app. split; [|apply Forall_singleton; simpl; apply Qle_refl].
           eapply Forall_impl; [exact Hall|]. intros c Hc.
           destruct c as [[|t' ts']|]; try done. simpl in *.
           eapply Qle_trans; [exact Hc|]. by apply Qlt_le_weak.
      * apply gt_false_le in Hgt. split; [done|]. exists i.
        split; [by apply lookup_app_l_Some|]. split; [by apply Hbefore'|].
        apply Forall_app. split; [done|]. by apply Forall_singleton.
    + split; [done|]. exists i. split; [by apply lookup_app_l_Some|].
      split; [by apply Hbefore'|]. apply Forall_app. split; [done|]. by apply Forall_singleton.
  - unfold keep_best. destruct c as [[|t ts]|]; simpl.
    + apply Forall_app. split; [done|]. by apply Forall_singleton.
    + split; [done|]. exists (length cs). split; [by apply list_lookup_middle|].
      split.
      * intros j c Hj Hc. rewrite lookup_app_l in Hc by done.
        rewrite Forall_forall in IH.
        specialize (IH c (list_elem_of_lookup_2 _ _ _ Hc)).
        destruct c as [[|t' ts']|]; try done. by destruct (IH t' ts').
      * apply Forall_app. split; [|apply Forall_singleton; simpl; apply Qle_refl].
        eapply Forall_impl; [exact IH|]. intros c Hc.
        destruct c as [[|t' ts']|]; try done. by destruct (Hc t' ts').
    + apply Forall_app. split; [done|]. by apply Forall_singleton.
Qed.



(** *** Locale resolution elsewhere *)

(** X16. [extractEntities] resolves the locale as [process] does, except that it
    has no fallback: when the locale is registered, or the guesser names
    one, the entities are those found for the locale [process] resolves;
    when the locale is not registered they are those found for the guess,
    locale or not. *)
Theorem extractEntities_locale m srcLocale srcUtterance (whitelist : Data) :
  let utterance := if falsy srcUtterance then srcLocale else srcUtterance in
  let supplied :=
    if falsy srcUtterance then guessLanguage m srcLocale else srcLocale in
  (getTruncatedLocale supplied ∈ languages m ∨
   falsy (guessLanguage m utterance) = false →
   extractEntities m srcLocale srcUtterance whitelist
   = findEntities (nerManager m) utterance
       (getTruncatedLocale (process_locale m srcLocale srcUtterance).1.2)
       whitelist) ∧
  (getTruncatedLocale supplied ∉ languages m →
   extractEntities m srcLocale srcUtterance whitelist
   = findEntities (nerManager m) utterance
       (getTruncatedLocale (guessLanguage m utterance)) whitelist).
Proof.
  unfold extractEntities, process_locale.
  destruct (falsy srcUtterance); simpl; split.
  - intros [Hin|Hg]; case_decide; try done. by rewrite Hg.
  - intros Hnin. by rewrite decide_False.
  - intros [Hin|Hg]; case_decide; try done. by rewrite Hg.
  - intros Hnin. by rewrite decide_False.
Qed.

(** X17. Called with the utterance alone, [classify] and [getSentiment] guess
    the locale: the call is the two-argument call with the guess. *)
Theorem one_argument_calls m (utterance missing : jsval) :
  falsy utterance = false → falsy missing = true →
  classify m utterance missing = classify m (guessLanguage m utterance) utterance ∧
  getSentiment m utterance missing
  = getSentiment m (guessLanguage m utterance) utterance.
Proof.
  intros Hu Hm. unfold classify, getSentiment. by rewrite Hu, Hm.
Qed.

(** *** More on training *)

Lemma train_fold_frame m (ls : list jsval) m' :
  foldl train_step (Ok m) ls = Ok m' →
  languages m' = languages m ∧ store m' = store m ∧
  intentDomains m' = intentDomains m ∧
  (∀ k, is_Some (classifiers m' !! k) ↔ is_Some (classifiers m !! k)).
Proof.
  revert m. induction ls as [|l ls IH]; intros m; simpl.
  - by intros [= ->].
  - destruct (classifiers m !! prop_key (getTruncatedLocale l)) as [c|] eqn:E;
      [|apply IH].
    destruct (classifier_train (store m) c) as [c'|e]; simpl.
    + intros (Hl & Hs & Hd & Hk)%IH. simpl in *.
      repeat (split; [done|]). intros k. rewrite Hk.
      destruct (decide (k = prop_key (getTruncatedLocale l))) as [->|Hne].
      * rewrite lookup_insert_eq, E. split; eauto.
      * by rewrite lookup_insert_ne.
    + assert (Hthrow : ∀ ls', foldl train_step (Throw e) ls' = Throw e).
      { induction ls' as [|?? IH']; [done|]. simpl. apply IH'. }
      by rewrite Hthrow.
Qed.


(** *** More on export and import *)

Lemma export_fold_thrown m (ls : list jsval) (e : error) :
  foldl (export_step m) (Throw e) ls = Throw e.
Proof. induction ls as [|l ls IH]; [done|]. simpl. apply IH. Qed.

Lemma export_fold_outcome m (ls : list jsval) (clones : list (ClassifierClone nat))
    (σ : Store) :
  match foldl (export_step m) (Ok (clones, σ)) ls with
  | Ok (clones', σ') =>
      clones' = clones ++ omap (λ l, live_clone <$> classifiers m !! prop_key l) ls ∧
      Forall (λ l, is_Some (classifiers m !! prop_key l)) ls ∧
      length σ' = length σ
  | Throw e =>
      e = TypeError ∧
      ¬ Forall (λ l, ∃ c, classifiers m !! prop_key l = Some c ∧
                          lrc_observations c < length σ) ls
  end.
Proof.
  revert clones σ. induction ls as [|l ls IH]; intros clones σ.
  - simpl. by rewrite app_nil_r.
  - cbn [foldl].
    destruct (classifiers m !! prop_key l) as [c|] eqn:Hc.
    + destruct (σ !! lrc_observations c) as [obs|] eqn:Hobs.
      * assert (Hstep : export_step m (Ok (clones, σ)) l
                        = Ok (clones ++ [live_clone c], sparsify σ (lrc_observations c))).
        { unfold export_step, sparsify. simpl. rewrite Hc. simpl. by rewrite Hobs. }
        rewrite Hstep. specialize (IH (clones ++ [live_clone c])
                                      (sparsify σ (lrc_observations c))).
        destruct (foldl _ _ ls) as [[clones' σ']|e].
        -- destruct IH as (-> & Hall & Hlen). cbn [omap list_omap]. rewrite Hc. simpl.
           rewrite <-app_assoc. split; [done|]. split.
           ++ apply Forall_cons. split; [by rewrite Hc|done].
           ++ by rewrite Hlen, sparsify_length.
        -- destruct IH as [-> Hnot]. split; [done|].
           intros [_ Hall]%Forall_cons. apply Hnot.
           eapply Forall_impl; [exact Hall|]. intros l' (c' & ? & ?).
           exists c'. by rewrite sparsify_length.
      * assert (Hstep : export_step m (Ok (clones, σ)) l = Throw TypeError).
        { unfold export_step. simpl. rewrite Hc. simpl. by rewrite Hobs. }
        rewrite Hstep, export_fold_thrown. split; [done|].
        intros [(c' & Hc' & Hlt) _]%Forall_cons. rewrite Hc in Hc'.
        injection Hc' as <-. apply lookup_ge_None in Hobs. lia.
    + assert (Hstep : export_step m (Ok (clones, σ)) l = Throw TypeError).
      { unfold export_step. simpl. by rewrite Hc. }
      rewrite Hstep, export_fold_thrown. split; [done|].
      intros [(c' & Hc' & _) _]%Forall_cons. congruence.
Qed.

Lemma stringify_classifier_language (σ : Store) (c : ClassifierClone nat)
    (d : ClassifierClone (gmap string (list (list cell)))) :
  stringify_classifier (Data := Data) σ c = Some d → cc_language d = cc_language c.
Proof.
  unfold stringify_classifier. destruct (σ !! _); [|done]. by intros [= <-].
Qed.


Lemma export_keeps_registry_ok m :
  registry_ok m →
  registry_ok (with_registry m (languages m) (classifiers m)
                 (foldl sparsify (store m)
                    (omap (observations_ref m) (languages m)))).
Proof.
  intros (Hnd & Hall & Hrefs). split; [done|]. split; [|done].
  eapply Forall_impl; [exact Hall|]. intros l Hl. unfold language_ok in *.
  simpl. destruct l; try done. destruct (classifiers m !! _); [|done].
  by rewrite sparsify_fold_length.
Qed.

(** X20. A second [export] of the same manager writes every observation row as
    the empty row: the first call left the classifiers holding encoded rows,
    and the encoding of an encoded row is empty. *)
Theorem export_twice m (minified minified' : bool) :
  registry_ok m →
  ∃ document1 m1 document2 m2,
    export m minified = Ok (document1, m1) ∧
    export m1 minified' = Ok (document2, m2) ∧
    Forall (λ cc, map_Forall (λ _ rows, Forall (λ cells : list cell, cells = []) rows)
                    (lg_observations cc))
      (c_classifiers document2).
Proof.
  intros Hok. pose proof (export_keeps_registry_ok m Hok) as Hok1.
  eexists _, _, _, _. split; [by apply export_spec|].
  split; [by apply export_spec|].
  apply Forall_forall. intros cc Hcc. simpl in Hcc.
  apply list_elem_of_omap in Hcc as (l & Hl & Hcc).
  destruct (registry_ok_bound m l Hok Hl) as (s & c & obs & -> & _ & Hc & _ & Hobs).
  simpl in Hcc. rewrite Hc in Hcc. injection Hcc as <-. simpl.
  rewrite sparsify_fold_lookup by apply Hok.
  rewrite decide_True.
  2:{ apply list_elem_of_omap. exists (JStr s). split; [done|].
      unfold observations_ref. simpl. by rewrite Hc. }
  rewrite Hobs. simpl. intros label rows.
  rewrite !lookup_fmap. destruct (obs !! label) as [rows0|]; [|done].
  simpl. intros [= <-]. unfold sparse_matrix. rewrite <-list_fmap_compose.
  apply Forall_fmap, Forall_forall. intros r _. apply sparse_row_twice.
Qed.

Lemma addLanguage_processTransformer m (srcLocales : locales) :
  processTransformer (addLanguage m srcLocales) = processTransformer m.
Proof.
  unfold addLanguage. generalize (to_array srcLocales). intros ls. revert m.
  induction ls as [|l ls IH]; intros m; [done|]. simpl. rewrite IH.
  unfold addLanguage_step. by destruct (classifiers m !! _).
Qed.

Lemma import_fold_thrown
    (cs : list (ClassifierClone (gmap string (list (list cell))))) (e : error) :
  foldl (import_step (Data := Data) (Ner := Ner) (Slot := Slot)) (Throw e) cs
  = Throw e.
Proof. induction cs as [|c cs IH]; [done|]. simpl. apply IH. Qed.

Lemma import_fold_processTransformer
    (cs : list (ClassifierClone (gmap string (list (list cell))))) m m' :
  foldl import_step (Ok m) cs = Ok m' →
  processTransformer m' = processTransformer m.
Proof.
  revert m. induction cs as [|cc cs IH]; intros m; [by intros [= ->]|].
  cbn [foldl]. destruct (import_step (Ok m) cc) as [m1|e] eqn:E.
  - intros ->%IH. unfold import_step in E. simpl in E.
    destruct (classifiers (addLanguage m _) !! _); [|done].
    injection E as <-. simpl. apply addLanguage_processTransformer.
  - by rewrite import_fold_thrown.
Qed.

(** X21. [import] of an exported document restores what the document carries:
    the locales, the domains, the responses, the settings as JSON keeps
    them, and for the classifier of each locale its language, documents,
    features, labels, classifications, observation count and weights.  The
    registry it leaves is well formed; the transform hook, which no document
    carries, is the one the importing manager had. *)
Theorem import_restores m m0 (minified : bool) :
  registry_ok m → filed_under_language m0 →
  ∃ document m1 m2,
    export m minified = Ok (document, m1) ∧
    import m0 document = Ok m2 ∧
    registry_ok m2 ∧
    languages m2 = languages m ∧
    intentDomains m2 = intentDomains m ∧
    nlg_responses m2 = nlg_responses m ∧
    settings m2 = json_settings (settings m) ∧
    processTransformer m2 = processTransformer m0 ∧
    Forall (λ l, ∃ c c2,
              classifiers m !! prop_key l = Some c ∧
              classifiers m2 !! prop_key l = Some c2 ∧
              cl_language c2 = cl_language c ∧ cl_docs c2 = cl_docs c ∧
              cl_features c2 = cl_features c ∧
              lrc_labels c2 = lrc_labels c ∧
              lrc_classifications c2 = lrc_classifications c ∧
              lrc_observationCount c2 = lrc_observationCount c ∧
              lrc_theta c2 = lrc_theta c)
      (languages m).
Proof.
  intros Hok Hfiled.
  destruct (import_document m m0 Hok Hfiled)
    as (m2 & Himp & Hok2 & Hset & Hlang & Hdom & Hn & Hs & Hnlg & Hcs).
  exists (document_of m). eexists _, m2.
  split; [by apply export_spec|]. repeat (split; [done|]).
  split.
  { unfold import in Himp. by apply import_fold_processTransformer in Himp. }
  apply Forall_forall. intros l Hl.
  destruct (document_classifier m l Hok Hl)
    as (s & c & obs & -> & Ht & Hc & Hcl & Hobs & Hin).
  rewrite Forall_forall in Hcs. destruct (Hcs _ Hin) as (o & Hb & Ho).
  simpl in Hb. rewrite Hcl in Hb. simpl in Hb.
  exists c. eexists. split; [done|]. split; [exact Hb|]. done.
Qed.

(** X22. Export then import changes the observation rows of a binary model in
    one way only: column 0 of every row is 0 afterwards. *)
Theorem codec_zeroes_column_0 m m0 (minified : bool) :
  registry_ok m → binary_model m → filed_under_language m0 →
  ∃ document m1 m2,
    export m minified = Ok (document, m1) ∧
    import m0 document = Ok m2 ∧
    Forall (λ l, observations_of m2 l
                 = (λ obs : gmap string (list (list cell)),
                      (λ rows : list (list cell),
                         (λ cells : list cell, <[0 := Num 0]> cells) <$> rows) <$> obs)
                   <$> observations_of m l)
      (languages m).
Proof.
  intros Hok Hbin Hfiled.
  destruct (import_document m m0 Hok Hfiled)
    as (m2 & Himp & Hok2 & Hset & Hlang & Hdom & Hn & Hs & Hnlg & Hcs).
  exists (document_of m). eexists _, m2.
  split; [by apply export_spec|]. split; [done|].
  apply Forall_forall. intros l Hl.
  destruct (document_classifier m l Hok Hl)
    as (s & c & obs & -> & Ht & Hc & Hcl & Hobs & Hin).
  rewrite Forall_forall in Hcs. destruct (Hcs _ Hin) as (o & Hb & Ho).
  simpl in Hb. rewrite Hcl in Hb. simpl in Hb.
  unfold observations_of. simpl. rewrite Hb, Hc. simpl. rewrite Ho, Hobs.
  simpl. f_equal. unfold decoded_observations. simpl. rewrite Hobs. simpl.
  unfold binary_model in Hbin. rewrite Forall_forall in Hbin.
  specialize (Hbin _ Hl). unfold rows_of in Hbin. simpl in Hbin.
  rewrite Hc, Hobs in Hbin.
  rewrite <-map_fmap_compose. apply map_fmap_ext. intros label rows Hrows. simpl.
  specialize (Hbin label rows Hrows). simpl in Hbin.
  unfold dense_matrix, sparse_matrix. rewrite <-list_fmap_compose.
  apply list_fmap_ext. intros i r Hr. simpl.
  apply dense_sparse_zeroes_column_0.
  rewrite Forall_forall in Hbin. apply Hbin. by eapply list_elem_of_lookup_2.
Qed.

(** X23. [import] looks a classifier up under the language as the document
    writes it, after registering the language truncated: a document whose
    first classifier has a language that truncation changes, and that names
    no classifier of the importing manager, is rejected with a
    [TypeError]. *)
Theorem import_unnormalised_language m0 (document : Clone (gmap string (list (list cell))))
    (cc : ClassifierClone (gmap string (list (list cell))))
    (others : list (ClassifierClone (gmap string (list (list cell))))) :
  c_classifiers document = cc :: others →
  classifiers m0 !! prop_key (cc_language cc) = None →
  prop_key (getTruncatedLocale (cc_language cc)) ≠ prop_key (cc_language cc) →
  import m0 document = Throw TypeError.
Proof.
  intros Hcs Hnone Hne. unfold import. rewrite Hcs. cbn [foldl].
  match goal with |- foldl import_step ?x others = _ =>
    replace x with (@Throw (@NlpManager Data Ner Slot) TypeError) end;
    [apply import_fold_thrown|].
  unfold import_step. simpl.
  match goal with |- context [addLanguage ?base _] =>
    destruct (addLanguage_frame base (One (cc_language cc))) as (_ & _ & _ & _ & Hc) end.
  destruct (classifiers (addLanguage _ _) !! prop_key (cc_language cc)) as [c|] eqn:E;
    [|done].
  destruct (Hc _ _ E) as [Hold|(l & o & Hl & Hk & _)].
  - simpl in Hold. congruence.
  - simpl in Hl. apply list_elem_of_singleton in Hl as ->. congruence.
Qed.

(** *** save and load *)


End Proofs.

(** ** The statements at work in the concrete world *)

Section Examples.

Import Toy.

Local Open Scope string_scope.

Lemma toy_slot_keeps_verdict : slot_keeps_verdict (H := collaborators).
Proof. intros slot r context. reflexivity. Defined.

Lemma toy_hook_keeps_verdict : keeps_verdict (Data := string) id.
Proof. intros r. reflexivity. Defined.

(** A manager of this world satisfies the hypotheses of C1. *)
Lemma trained_registry_ok : registry_ok trained.
Proof. refine (bool_decide_unpack _ _). vm_compute. exact I. Defined.

Lemma trained_binary : binary_model trained.
Proof. refine (bool_decide_unpack _ _). vm_compute. exact I. Defined.

Lemma trained_no_column_0 : no_feature_at_column_0 trained.
Proof. refine (bool_decide_unpack _ _). vm_compute. exact I. Defined.

Lemma blank_filed : filed_under_language blank.
Proof. refine (bool_decide_unpack _ _). vm_compute. exact I. Defined.

(** C1 at work: the trained manager, exported, imported into a blank
    manager and exported again. *)
Lemma codec_round_trip_witness :
  ∃ document m1 m2 m3,
    export trained false = Ok (document, m1) ∧
    import blank document = Ok m2 ∧
    export m2 true = Ok (document, m3) ∧
    Forall (λ l, observations_of m2 l = observations_of trained l)
      (languages trained).
Proof.
  apply (codec_round_trip trained blank false true).
  - intros ner ner0. reflexivity.
  - intros slot slot0. reflexivity.
  - exact trained_registry_ok.
  - exact trained_binary.
  - exact trained_no_column_0.
  - exact blank_filed.
Defined.







(** C8 at work: one locale without a classifier, one with. *)
Lemma train_skips_unbound_witness :
  ∃ m', train trained (Some (Many [JStr "de"; JStr "en"])) = Ok m' ∧
        languages m' = languages trained ∧
        (∀ k, classifiers trained !! k = None → classifiers m' !! k = None).
Proof.
  apply (train_skips_unbound trained (Some (Many [JStr "de"; JStr "en"]))).
  intros σ c. exists c. reflexivity.
Defined.

(** C8 as stated fails: no classifier is bound to "de", and [train] on "de"
    raises nothing; it returns the manager as it was. *)
Lemma train_unbound_locale_succeeds :
  classifiers trained !! prop_key (getTruncatedLocale (JStr "de")) = None ∧
  train trained (Some (One (JStr "de"))) = Ok trained.
Proof. split; vm_compute; reflexivity. Qed.

(** C7 at work: "en-US", "en" and "en-GB" are one locale, bound once. *)
Example one_locale_three_spellings :
  let m1 := addLanguage blank (Many [JStr "en-US"; JStr "es"]) in
  let m2 := addLanguage (addLanguage m1 (One (JStr "en"))) (One (JStr "en-GB")) in
  languages m2 = [JStr "en"; JStr "es"] ∧
  classifiers m2 !! "en" = classifiers m1 !! "en" ∧
  occurrences (JStr "en") (languages m2) = 1.
Proof. vm_compute. repeat split; reflexivity. Qed.

(** C2: [export] is not a snapshot.  The trained manager holds dense rows
    for "en" before the call and their sparse encodings after it, and a
    second [export] of the same manager returns a different document. *)
Theorem export_overwrites_observations :
  ∃ document m1 document' m1',
    export trained false = Ok (document, m1) ∧
    observations_of trained (JStr "en") = Some en_observations ∧
    en_observations !! "greet"
    = Some [[Num 0; Num 1; Num 0]; [Num 0; Num 1; Num 1]] ∧
    observations_of m1 (JStr "en") = Some (sparse_matrix <$> en_observations) ∧
    (sparse_matrix <$> en_observations) !! "greet"
    = Some [[Num 1]; [Num 1; Num 2]] ∧
    export m1 false = Ok (document', m1') ∧
    document' ≠ document.
Proof.
  eexists _, _, _, _. do 6 (split; [vm_compute; reflexivity|]).
  intros Heq.
  apply (f_equal (λ d, (λ c, lg_observations c !! "greet") <$> c_classifiers d)) in Heq.
  vm_compute in Heq. discriminate Heq.
Qed.

(** C6: [clear] leaves the intent-to-domain map as it was. *)
Theorem clear_keeps_intent_domains :
  intentDomains trained !! "bye" = Some "smalltalk" ∧
  languages (clear trained) = [] ∧
  classifiers (clear trained) = ∅ ∧
  intentDomains (clear trained) !! "bye" = Some "smalltalk" ∧
  getIntentDomain (clear trained) "greet" = Some "default".
Proof. repeat split; vm_compute; reflexivity. Qed.

(** C9: with the locale given and registered, an empty classification of
    "call John" and a non-empty one of "call %name%", [process] throws. *)
Theorem process_throws_on_empty_classification :
  JStr "en" ∈ languages trained ∧
  classify trained (JStr "en") (JStr "call John") = Some [] ∧
  generateEntityUtterance (nerManager trained) (JStr "call John") (JStr "en")
  = JStr "call %name%" ∧
  classify trained (JStr "en") (JStr "call %name%") = Some [E "call" (9 # 10)] ∧
  process trained (JStr "en") (JStr "call John") None = Throw TypeError.
Proof.
  split; [refine (bool_decide_unpack _ _); vm_compute; exact I|].
  repeat split; vm_compute; reflexivity.
Qed.

End Examples.

(** ** Further statements at work in the concrete world *)

Section MoreExamples.

Import Toy.

Local Open Scope string_scope.

(** A binary row with a 1 in column 0: the round trip zeroes it. *)
Example column_0_zeroed_row :
  dense_row 3 (sparse_row [Num 1; Num 1; Num 0]) = [Num 0; Num 1; Num 0].
Proof.
  apply (dense_sparse_zeroes_column_0 3 [Num 1; Num 1; Num 0]).
  refine (bool_decide_unpack _ _). vm_compute. exact I.
Defined.

(** English after [clear]: a new classifier, with the third observations
    object of the store. *)
Lemma clear_addLanguage_fresh_witness :
  ∃ l o, l ∈ to_array (One (JStr "en")) ∧ "en" = prop_key (getTruncatedLocale l) ∧
         new_NlpClassifier (JStr "en") 2 = new_NlpClassifier (getTruncatedLocale l) o ∧
         (length (store trained) ≤ o)%nat ∧
         store (addLanguage (clear trained) (One (JStr "en"))) !! o
         = Some init_observations.
Proof.
  apply (clear_addLanguage_fresh trained (One (JStr "en")) "en"
           (new_NlpClassifier (JStr "en") 2)).
  vm_compute. reflexivity.
Defined.

Lemma addDocument_after_addLanguage_witness :
  ∃ m', addDocument (addLanguage blank (One (JStr "en-US"))) (JStr "en-US")
          (JStr "hello") "greet" = Ok m'.
Proof.
  apply (addDocument_after_addLanguage blank (JStr "en-US") (JStr "hello") "greet").
  reflexivity.
Defined.

(** A document for an intent with no domain yet. *)
Lemma addDocument_effects_witness :
  ∃ m', addDocument trained (JStr "en") (JStr "good morning") "hail" = Ok m' ∧
        languages m' = languages trained ∧
        store m' = store trained ∧
        getIntentDomain m' "hail" = Some "default" ∧
        getIntentDomain m' "bye" = Some "smalltalk".
Proof.
  eexists. split; [vm_compute; reflexivity|].
  edestruct (addDocument_effects trained (JStr "en") (JStr "good morning") "hail")
    as (Hl & Hs & _ & _ & Hd & _ & Ho & _).
  - vm_compute. reflexivity.
  - split; [exact Hl|]. split; [exact Hs|]. split.
    + apply Hd. refine (bool_decide_unpack _ _). vm_compute. exact I.
    + rewrite (Ho "bye"); [reflexivity|discriminate].
Defined.


Lemma removeDocument_effects_witness :
  ∃ m', removeDocument trained (JStr "en") (JStr "bye") "bye" = Ok m' ∧
        languages m' = languages trained ∧
        store m' = store trained ∧
        intentDomains m' = intentDomains trained ∧
        slotManager m' = slotManager trained.
Proof.
  eexists. split; [vm_compute; reflexivity|].
  edestruct (removeDocument_effects trained (JStr "en") (JStr "bye") "bye")
    as (Hl & Hs & Hd & Hslot & _).
  - vm_compute. reflexivity.
  - split; [exact Hl|]. split; [exact Hs|]. split; [exact Hd|exact Hslot].
Defined.



Lemma one_argument_calls_witness :
  classify trained (JStr "hola") JUndef
  = classify trained (guessLanguage trained (JStr "hola")) (JStr "hola") ∧
  getSentiment trained (JStr "hola") JUndef
  = getSentiment trained (guessLanguage trained (JStr "hola")) (JStr "hola").
Proof.
  apply (one_argument_calls trained (JStr "hola") JUndef); reflexivity.
Defined.


Lemma export_twice_witness :
  ∃ document1 m1 document2 m2,
    export trained false = Ok (document1, m1) ∧
    export m1 true = Ok (document2, m2) ∧
    Forall (λ cc, map_Forall (λ _ rows, Forall (λ cells : list cell, cells = []) rows)
                    (lg_observations cc))
      (c_classifiers document2).
Proof. exact (export_twice trained false true trained_registry_ok). Defined.

Lemma import_restores_witness :
  ∃ document m1 m2,
    export trained false = Ok (document, m1) ∧
    import blank document = Ok m2 ∧
    registry_ok m2 ∧
    languages m2 = languages trained ∧
    intentDomains m2 = intentDomains trained.
Proof.
  destruct (import_restores trained blank false trained_registry_ok blank_filed)
    as (document & m1 & m2 & He & Hi & Hok & Hl & Hd & _).
  exists document, m1, m2. split; [exact He|]. split; [exact Hi|].
  split; [exact Hok|]. split; [exact Hl|exact Hd].
Defined.

Lemma codec_zeroes_column_0_witness :
  ∃ document m1 m2,
    export trained false = Ok (document, m1) ∧
    import blank document = Ok m2 ∧
    Forall (λ l, observations_of m2 l
                 = (λ obs : gmap string (list (list cell)),
                      (λ rows : list (list cell),
                         (λ cells : list cell, <[0 := Num 0]> cells) <$> rows) <$> obs)
                   <$> observations_of trained l)
      (languages trained).
Proof.
  exact (codec_zeroes_column_0 trained blank false trained_registry_ok
           trained_binary blank_filed).
Defined.

(** A domain named like a method of every object. *)
Example domain_named_like_a_method :
  getDomains (assignDomain trained "help" "toString") = Throw TypeError.
Proof. vm_compute. reflexivity. Qed.

(** A document that names its classifier "en-US": the language is
    registered as "en" and the classifier looked up under "en-US". *)
Lemma import_unnormalised_language_witness :
  import blank handwritten = Throw TypeError.
Proof.
  eapply (import_unnormalised_language blank handwritten).
  - reflexivity.
  - reflexivity.
  - vm_compute. discriminate.
Defined.

End MoreExamples.
